(** * DNS cache resolver of the API firewall proxy

    A shallow embedding of [internal/platform/proxy/dnscache.go]: the
    [Resolver] struct, its constructor [NewDNSResolver] and its four methods
    [LookupIP], [Fetch], [Refresh] and [Stop], followed by the properties
    the specification states about them.

    The Go code is imperative: the methods mutate the resolver behind a
    pointer, call the network, take a read/write mutex and may panic.  All
    of this is threaded explicitly through a small state monad [M] whose
    outcomes are a normal return, a panic, or a goroutine that blocks for
    ever on the mutex. *)

From Stdlib Require Import ZArith Strings.Byte.
From stdpp Require Import gmap strings list fin_maps.

Local Open Scope Z_scope.
Local Open Scope string_scope.
Local Open Scope list_scope.

(** ** Data *)

(** [net.IP] is a byte slice; a nil slice and an empty slice are both the
    empty list (both have length zero and no element). *)
Definition IP : Type := list byte.

(** [net.IPAddr]. *)
Record IPAddr : Type := mkIPAddr { IPAddr_IP : IP; IPAddr_Zone : string }.

(** A Go [error] value, identified with its message; the nil error is
    [None] in an [option error]. *)
Definition error : Type := string.

(** [time.Duration]: a count of nanoseconds. *)
Definition Duration : Type := Z.
Definition Second : Duration := 1000000000.

(** The [context.Context] values the cache builds or passes on. *)
Inductive Context : Type :=
| Background
| WithTimeout (parent : Context) (timeout : Duration).

(** The pair [([]net.IP, error)] every lookup returns. *)
Definition lookup_result : Type := (list IP * option error)%type.

(** [cacheSize] is the initial capacity of the map; it has no observable
    effect. *)
Definition cacheSize : Z := 64.

Definition defaultFreq : Duration := 3 * Second.
Definition defaultLookupTimeout : Duration := 10 * Second.

(** [sync.RWMutex]: one writer or any number of readers. *)
Record RWMutex : Type := mkRWMutex { writer : bool; readers : nat }.
Definition unlocked : RWMutex := mkRWMutex false 0.

(** [time.Ticker], as far as the cache uses it. *)
Record Ticker : Type := mkTicker { period : Duration; ticker_stopped : bool }.

(** The one function value ever stored in the [closer] field: the closure
    of [NewDNSResolver] that stops the ticker and closes the channel. *)
Inductive closerFn : Type := StopTickerCloseCh.

(** [*logrus.Logger]; the field of the resolver is a pointer and may be
    nil. *)
Inductive Logger : Type := LogrusLogger.

(** What [Refresh] hands to the logger on a failed lookup. *)
Record LogEntry : Type :=
  mkLogEntry { log_error : error; log_addr : string; log_msg : string }.

(** What a goroutine does to the shared resolver and to the network, in the
    order it does it.  Traces are kept most recent event first. *)
Inductive event : Type :=
| EvLock
| EvUnlock
| EvRLock
| EvRUnlock
| EvResolve (ctx : Context) (host : string) (res : lookup_result)
| EvMapRead (addr : string)
| EvMapRange
| EvMapWrite (addr : string) (ips : list IP)
| EvLogError (err : error) (addr : string)
| EvCloser.

(** The three events of a look into the map under the read lock. *)
Definition read_events (addr : string) : list event :=
  [EvRUnlock; EvMapRead addr; EvRLock].

(** *** Reading a trace *)

(** The calls to the resolution capability in a trace, most recent first. *)
Fixpoint resolutions (tr : list event) : list (Context * string * lookup_result) :=
  match tr with
  | [] => []
  | EvResolve ctx host r :: tr' => (ctx, host, r) :: resolutions tr'
  | _ :: tr' => resolutions tr'
  end.

(** The address list of the most recent successful resolution of [host]. *)
Fixpoint last_success (host : string) (tr : list event) : option (list IP) :=
  match tr with
  | [] => None
  | EvResolve _ h (ips, None) :: tr' =>
      if String.eqb h host then Some ips else last_success host tr'
  | _ :: tr' => last_success host tr'
  end.

(** What the goroutine holds of the mutex. *)
Inductive held : Type := Free | Shared | Exclusive.

Definition held_eqb (a b : held) : bool :=
  match a, b with
  | Free, Free | Shared, Shared | Exclusive, Exclusive => true
  | _, _ => false
  end.

(** What the goroutine holds after the events of [tr]. *)
Fixpoint holds (tr : list event) : held :=
  match tr with
  | [] => Free
  | EvLock :: _ => Exclusive
  | EvRLock :: _ => Shared
  | EvUnlock :: _ | EvRUnlock :: _ => Free
  | _ :: tr' => holds tr'
  end.

(** The lock an event needs: the map is read under the read lock only,
    written under the write lock, the closer runs under the write lock, and
    the network is called with no lock at all. *)
Definition permitted (e : event) (h : held) : bool :=
  match e with
  | EvLock | EvRLock => held_eqb h Free
  | EvUnlock => held_eqb h Exclusive
  | EvRUnlock => held_eqb h Shared
  | EvResolve _ _ _ => held_eqb h Free
  | EvMapRead _ | EvMapRange => held_eqb h Shared
  | EvMapWrite _ _ => held_eqb h Exclusive
  | EvCloser => held_eqb h Exclusive
  | EvLogError _ _ => true
  end.

Fixpoint disciplined (tr : list event) : bool :=
  match tr with
  | [] => true
  | e :: tr' => permitted e (holds tr') && disciplined tr'
  end.

(** The address list most recently written into the entry of [host]. *)
Fixpoint last_write (host : string) (tr : list event) : option (list IP) :=
  match tr with
  | [] => None
  | EvMapWrite h ips :: tr' =>
      if String.eqb h host then Some ips else last_write host tr'
  | _ :: tr' => last_write host tr'
  end.

(** Every list written into the map had been returned, before the write,
    by a successful resolution of the same hostname. *)
Fixpoint writes_resolved (tr : list event) : Prop :=
  match tr with
  | [] => True
  | EvMapWrite h ips :: tr' =>
      (∃ ctx, (ctx, h, (ips, None)) ∈ resolutions tr') ∧ writes_resolved tr'
  | _ :: tr' => writes_resolved tr'
  end.

#[global] Instance byte_eq_dec : EqDecision byte := Byte.byte_eq_dec.

(** *** The effect of a sweep

    One iteration of the loop of [Refresh] calls the resolution capability
    for one address; [(addr, r)] records that the call for [addr] returned
    [r].  The functions below say what a list of such calls, oldest first,
    leaves in the map, in the log and in the trace. *)

Definition store_call (c : gmap string (list IP)) (call : string * lookup_result)
  : gmap string (list IP) :=
  match call.2.2 with
  | None => <[call.1 := call.2.1]> c
  | Some _ => c
  end.

Definition refresh_msg : string := "failed to refresh DNS cache".

Definition log_of_call (call : string * lookup_result) : list LogEntry :=
  match call.2.2 with
  | None => []
  | Some e => [mkLogEntry e call.1 refresh_msg]
  end.

Definition call_events (ctx : Context) (call : string * lookup_result) : list event :=
  match call.2.2 with
  | None => [EvUnlock; EvMapWrite call.1 call.2.1; EvLock; EvResolve ctx call.1 call.2]
  | Some e => [EvLogError e call.1; EvResolve ctx call.1 call.2]
  end.

Fixpoint sweep_log (calls : list (string * lookup_result)) : list LogEntry :=
  match calls with
  | [] => []
  | call :: rest => sweep_log rest ++ log_of_call call
  end.

Fixpoint sweep_events (ctx : Context) (calls : list (string * lookup_result))
  : list event :=
  match calls with
  | [] => []
  | call :: rest => sweep_events ctx rest ++ call_events ctx call
  end.

(** *** The copy loop of [lookupIPFn]

    [ips := make([]net.IP, len(addrs))] followed by
    [for i, ia := range addrs { ips[i] = ia.IP }], the loop taken from
    index [i] on.  A store beyond the end of the slice is the index panic of
    Go, [None] here. *)

Definition make_IPs (n : nat) : list IP := replicate n [].

Fixpoint copy_IPs (i : nat) (addrs : list IPAddr) (ips : list IP)
  : option (list IP) :=
  match addrs with
  | [] => Some ips
  | ia :: rest =>
      if decide (i < length ips)%nat
      then copy_IPs (S i) rest (<[i := IPAddr_IP ia]> ips)
      else None
  end.

(** The iteration order of a Go [range] over a map is chosen by the
    runtime; [W] is the state of everything outside the resolver (network,
    runtime), and [map_range] is the order the runtime picks. *)
Class GoRuntime (W : Type) : Type := {
  map_range : gmap string (list IP) → W → list string * W;
  map_range_perm : ∀ m w, (map_range m w).1 ≡ₚ (map_to_list m).*1
}.

Section Resolver.
Context {W : Type} `{!GoRuntime W}.

(** [*net.Resolver]: its method [LookupIPAddr] talks to the network. *)
Record net_Resolver : Type := mkNetResolver {
  LookupIPAddr : Context → string → W → (list IPAddr * option error) * W
}.

(** [type Resolver struct]. *)
Record Resolver : Type := mkResolver {
  lookupIPFn : Context → string → W → lookup_result * W;
  lookupTimeout : Duration;
  logger : option Logger;
  lock : RWMutex;
  cache : gmap string (list IP);
  closer : option closerFn
}.

(** The heap the methods run on: the resolver itself, the ticker and the
    channel its [closer] captured, what the logger has received, the
    outside world, and the trace of events so far. *)
Record State : Type := mkState {
  world : W;
  res : Resolver;
  ticker : Ticker;
  ch_closed : bool;
  log_out : list LogEntry;
  trace : list event
}.

Definition set_world (w : W) (s : State) : State :=
  mkState w (res s) (ticker s) (ch_closed s) (log_out s) (trace s).
Definition set_res (r : Resolver) (s : State) : State :=
  mkState (world s) r (ticker s) (ch_closed s) (log_out s) (trace s).
Definition set_ticker (t : Ticker) (s : State) : State :=
  mkState (world s) (res s) t (ch_closed s) (log_out s) (trace s).
Definition set_ch_closed (b : bool) (s : State) : State :=
  mkState (world s) (res s) (ticker s) b (log_out s) (trace s).
Definition set_log_out (l : list LogEntry) (s : State) : State :=
  mkState (world s) (res s) (ticker s) (ch_closed s) l (trace s).
Definition set_trace (t : list event) (s : State) : State :=
  mkState (world s) (res s) (ticker s) (ch_closed s) (log_out s) t.

Definition set_lock (l : RWMutex) (r : Resolver) : Resolver :=
  mkResolver (lookupIPFn r) (lookupTimeout r) (logger r) l (cache r) (closer r).
Definition set_cache (c : gmap string (list IP)) (r : Resolver) : Resolver :=
  mkResolver (lookupIPFn r) (lookupTimeout r) (logger r) (lock r) c (closer r).
Definition set_closer (c : option closerFn) (r : Resolver) : Resolver :=
  mkResolver (lookupIPFn r) (lookupTimeout r) (logger r) (lock r) (cache r) c.

(** ** The monad of method bodies *)

Inductive outcome (A : Type) : Type :=
| Done (a : A) (s : State)
| Panic (msg : string)
| Blocked.
Arguments Done {A} a s.
Arguments Panic {A} msg.
Arguments Blocked {A}.

Definition M (A : Type) : Type := State → outcome A.

Definition ret {A} (a : A) : M A := fun s => Done a s.

Definition bind {A B} (c : M A) (k : A → M B) : M B :=
  fun s =>
    match c s with
    | Done a s' => k a s'
    | Panic msg => Panic msg
    | Blocked => Blocked
    end.

Notation "'do' x <- c ; k" := (bind c (fun x => k))
  (at level 10, x name, c at level 100, k at level 200).
Notation "'do' ' p <- c ; k" := (bind c (fun x => let 'p := x in k))
  (at level 10, p pattern, c at level 100, k at level 200).
Notation "c ;; k" := (bind c (fun _ => k))
  (at level 100, k at level 200, right associativity).

Definition panic {A} (msg : string) : M A := fun _ => Panic msg.
Definition block {A} : M A := fun _ => Blocked.
Definition get : M State := fun s => Done s s.
Definition modify (f : State → State) : M unit := fun s => Done tt (f s).
Definition emit (e : event) : M unit :=
  modify (fun s => set_trace (e :: trace s) s).

(** ** Primitives *)

(** [r.lock.Lock()]: waits until there is neither a writer nor a reader. *)
Definition mu_Lock : M unit :=
  do s <- get;
  let l := lock (res s) in
  if writer l || negb (Nat.eqb (readers l) 0) then block
  else modify (fun s => set_res (set_lock (mkRWMutex true (readers l)) (res s)) s) ;;
       emit EvLock.

(** [r.lock.Unlock()]: a fatal error when the mutex is not write-locked. *)
Definition mu_Unlock : M unit :=
  do s <- get;
  let l := lock (res s) in
  if writer l
  then modify (fun s => set_res (set_lock (mkRWMutex false (readers l)) (res s)) s) ;;
       emit EvUnlock
  else panic "sync: Unlock of unlocked RWMutex".

(** [r.lock.RLock()]: waits while a writer holds the mutex. *)
Definition mu_RLock : M unit :=
  do s <- get;
  let l := lock (res s) in
  if writer l then block
  else modify (fun s => set_res (set_lock (mkRWMutex false (S (readers l))) (res s)) s) ;;
       emit EvRLock.

(** [r.lock.RUnlock()]. *)
Definition mu_RUnlock : M unit :=
  do s <- get;
  let l := lock (res s) in
  match readers l with
  | O => panic "sync: RUnlock of unlocked RWMutex"
  | S n => modify (fun s => set_res (set_lock (mkRWMutex (writer l) n) (res s)) s) ;;
           emit EvRUnlock
  end.

(** [r.lookupIPFn(ctx, addr)]: the only place the network is called. *)
Definition call_lookupIPFn (ctx : Context) (addr : string) : M lookup_result :=
  do s <- get;
  let '(r, w') := lookupIPFn (res s) ctx addr (world s) in
  modify (set_world w') ;;
  emit (EvResolve ctx addr r) ;;
  ret r.

(** [ips, ok := r.cache[addr]]. *)
Definition cache_get (addr : string) : M (option (list IP)) :=
  do s <- get;
  emit (EvMapRead addr) ;;
  ret (cache (res s) !! addr).

(** [r.cache[addr] = ips]. *)
Definition cache_set (addr : string) (ips : list IP) : M unit :=
  modify (fun s => set_res (set_cache (<[addr := ips]> (cache (res s))) (res s)) s) ;;
  emit (EvMapWrite addr ips).

(** [for addr := range r.cache { addrs = append(addrs, addr) }]. *)
Definition cache_keys : M (list string) :=
  do s <- get;
  let '(addrs, w') := map_range (cache (res s)) (world s) in
  modify (set_world w') ;;
  emit EvMapRange ;;
  ret addrs.

(** [r.logger.WithFields(...).Error("failed to refresh DNS cache")]. *)
Definition logger_Error (err : error) (addr : string) : M unit :=
  do s <- get;
  match logger (res s) with
  | None => panic "invalid memory address or nil pointer dereference"
  | Some _ =>
      modify (fun s => set_log_out
                (mkLogEntry err addr refresh_msg :: log_out s) s) ;;
      emit (EvLogError err addr)
  end.

(** The body of the [closer] closure: [ticker.Stop(); close(ch)]. *)
Definition call_closer (f : closerFn) : M unit :=
  modify (fun s => set_ticker (mkTicker (period (ticker s)) true) s) ;;
  do s <- get;
  if ch_closed s then panic "close of closed channel"
  else modify (set_ch_closed true) ;;
       emit EvCloser.

(** ** The methods *)

(** [func (r *Resolver) LookupIP(ctx, addr)]. *)
Definition LookupIP (ctx : Context) (addr : string) : M lookup_result :=
  do '(ips, err) <- call_lookupIPFn ctx addr;
  match err with
  | Some e => ret ([], Some e)
  | None =>
      mu_Lock ;;
      cache_set addr ips ;;
      mu_Unlock ;;
      ret (ips, None)
  end.

(** [func (r *Resolver) Fetch(ctx, addr)]. *)
Definition Fetch (ctx : Context) (addr : string) : M lookup_result :=
  mu_RLock ;;
  do hit <- cache_get addr;
  mu_RUnlock ;;
  match hit with
  | Some ips => ret (ips, None)
  | None => LookupIP ctx addr
  end.

(** The second loop of [Refresh], over the snapshot [addrs]. *)
Fixpoint Refresh_sweep (addrs : list string) : M unit :=
  match addrs with
  | [] => ret tt
  | addr :: rest =>
      do s <- get;
      let ctx := WithTimeout Background (lookupTimeout (res s)) in
      do '(_, err) <- LookupIP ctx addr;
      match err with
      | Some e => logger_Error e addr
      | None => ret tt
      end ;;
      (* cancelF() releases the timer of ctx, nothing of the resolver *)
      Refresh_sweep rest
  end.

(** [func (r *Resolver) Refresh()]. *)
Definition Refresh : M unit :=
  mu_RLock ;;
  do addrs <- cache_keys;
  mu_RUnlock ;;
  Refresh_sweep addrs.

(** [func (r *Resolver) Stop()].  The unlock is deferred in the source; on
    the paths that return it runs last. *)
Definition Stop : M unit :=
  mu_Lock ;;
  do s <- get;
  match closer (res s) with
  | Some f =>
      call_closer f ;;
      modify (fun s => set_res (set_closer None (res s)) s)
  | None => ret tt
  end ;;
  mu_Unlock.

(** [var onRefreshed = func() {}]: the hook the goroutine calls after each
    refresh; it does nothing unless a test replaces it. *)
Definition onRefreshed : M unit := ret tt.

(** The case the [select] of the goroutine takes. *)
Inductive select_case : Type := case_ticker_C | case_ch.

(** One turn of the [for { select { ... } }] loop of the goroutine that
    [NewDNSResolver] starts; the value says whether the loop goes on.  The
    case of [ch] can only be taken once the channel is closed. *)
Definition goroutine_turn (c : select_case) : M bool :=
  match c with
  | case_ticker_C => Refresh ;; onRefreshed ;; ret true
  | case_ch => do s <- get; if ch_closed s then ret false else block
  end.

(** The closure [lookupIPFn] that [NewDNSResolver] builds around the
    resolver it is given. *)
Definition new_lookupIPFn (resolver : net_Resolver)
    (ctx : Context) (host : string) (w : W) : lookup_result * W :=
  let '((addrs, err), w') := LookupIPAddr resolver ctx host w in
  match err with
  | Some e => (([], Some e), w')
  | None => ((map IPAddr_IP addrs, None), w')
  end.

(** [time.NewTicker(d)] panics on a non-positive period. *)
Definition NewTicker (d : Duration) : option Ticker :=
  if (d <=? 0)%Z then None else Some (mkTicker d false).

(** [func NewDNSResolver(freq, lookupTimeout, resolver, logger)]: the state
    it leaves behind holds the new resolver; the value returned next to it
    is the nil error.  The goroutine it starts takes its turns
    ([goroutine_turn]) between the calls of the methods. *)
Definition NewDNSResolver (freq lookupTimeout : Duration)
    (resolver : net_Resolver) (lg : option Logger) (w : W)
  : outcome (option error) :=
  let freq := if (freq <=? 0)%Z then defaultFreq else freq in
  let lookupTimeout :=
    if (lookupTimeout <=? 0)%Z then defaultLookupTimeout else lookupTimeout in
  match NewTicker freq with
  | None => Panic "non-positive interval for NewTicker"
  | Some tk =>
      let r := mkResolver (new_lookupIPFn resolver) lookupTimeout lg
                          unlocked ∅ (Some StopTickerCloseCh) in
      Done None (mkState w r tk false [] [])
  end.

(** ** Predicates on calls *)

(** The call [c] returns from [st], and the events it adds to the trace obey
    the lock discipline on their own, from no lock held to no lock held. *)
Definition follows_discipline {A} (c : M A) (st : State) : Prop :=
  ∃ a st' evs, c st = Done a st'
             ∧ trace st' = evs ++ trace st
             ∧ disciplined evs = true
             ∧ holds evs = Free.

(** Between two calls nobody holds the mutex, and a resolver that still has
    its [closer] has an open channel. *)
Definition quiescent (st : State) : Prop :=
  lock (res st) = unlocked ∧ (is_Some (closer (res st)) → ch_closed st = false).

(** The cache holds, for every hostname, the answer of its last successful
    resolution, and nothing for a hostname that has none. *)
Definition cache_inv (st : State) : Prop :=
  quiescent st
  ∧ is_Some (logger (res st))
  ∧ ∀ h, cache (res st) !! h = last_success h (trace st).

(** What one call keeps: the invariant, and every key of the map. *)
Definition keeps_cache {A} (c : M A) (st : State) : Prop :=
  ∃ a st', c st = Done a st'
         ∧ cache_inv st'
         ∧ dom (cache (res st)) ⊆ dom (cache (res st')).

(** ** Sequences of calls *)

(** What can happen to a resolver: a call of one of its four methods, or a
    tick of the ticker that the goroutine receives. *)
Inductive op : Type :=
| OpLookupIP (ctx : Context) (addr : string)
| OpFetch (ctx : Context) (addr : string)
| OpRefresh
| OpStop
| OpTick.

Definition exec (o : op) : M unit :=
  match o with
  | OpLookupIP ctx addr => LookupIP ctx addr ;; ret tt
  | OpFetch ctx addr => Fetch ctx addr ;; ret tt
  | OpRefresh => Refresh
  | OpStop => Stop
  | OpTick => goroutine_turn case_ticker_C ;; ret tt
  end.

Fixpoint run (ops : list op) : M unit :=
  match ops with
  | [] => ret tt
  | o :: ops' => exec o ;; run ops'
  end.

(** [Fetch] of the same address once per context of [ctxs], in order; the
    results are returned in the order of the calls. *)
Fixpoint Fetch_each (ctxs : list Context) (addr : string) : M (list lookup_result) :=
  match ctxs with
  | [] => ret []
  | ctx :: ctxs' =>
      do r <- Fetch ctx addr;
      do rs <- Fetch_each ctxs' addr;
      ret (r :: rs)
  end.

(** The closure [lookupIPFn] with its loop spelt out as in the source;
    [None] is a panic. *)
Definition lookupIPFn_loop (resolver : net_Resolver)
    (ctx : Context) (host : string) (w : W) : option (lookup_result * W) :=
  let '((addrs, err), w') := LookupIPAddr resolver ctx host w in
  match err with
  | Some e => Some (([], Some e), w')
  | None =>
      match copy_IPs 0 addrs (make_IPs (length addrs)) with
      | Some ips => Some ((ips, None), w')
      | None => None
      end
  end.

(** ** What a sequence of calls leaves of the resolver *)

Definition is_stop (o : op) : bool :=
  match o with OpStop => true | _ => false end.

Definition has_stop (ops : list op) : bool := existsb is_stop ops.

(** The fields no method assigns. *)
Definition same_config (st st' : State) : Prop :=
  lookupIPFn (res st') = lookupIPFn (res st)
  ∧ lookupTimeout (res st') = lookupTimeout (res st)
  ∧ logger (res st') = logger (res st)
  ∧ period (ticker st') = period (ticker st).

(** The [closer], the channel and the ticker change together, once, at the
    first [Stop] of a resolver that still has its [closer]. *)
Definition stop_effect (stop : bool) (st st' : State) : Prop :=
  match closer (res st), stop with
  | Some _, true =>
      closer (res st') = None
      ∧ ch_closed st' = true
      ∧ ticker st' = mkTicker (period (ticker st)) true
  | _, _ =>
      closer (res st') = closer (res st)
      ∧ ch_closed st' = ch_closed st
      ∧ ticker st' = ticker st
  end.

(** All that is known of the state a call returns in. *)
Definition summary {A} (c : M A) (stop : bool) (st : State) : Prop :=
  ∃ a st' evs, c st = Done a st'
             ∧ cache_inv st'
             ∧ trace st' = evs ++ trace st
             ∧ disciplined evs = true
             ∧ holds evs = Free
             ∧ same_config st st'
             ∧ stop_effect stop st st'.

(** ** The resolution capability, asked directly *)

(** What the capability [fn] answers when it is asked for each address of
    [addrs] in turn, from the world [w] on, and the world it leaves. *)
Fixpoint sweep_calls (fn : Context → string → W → lookup_result * W)
    (ctx : Context) (addrs : list string) (w : W)
  : list (string * lookup_result) * W :=
  match addrs with
  | [] => ([], w)
  | addr :: rest =>
      let '(r, w1) := fn ctx addr w in
      let '(calls, w2) := sweep_calls fn ctx rest w1 in
      ((addr, r) :: calls, w2)
  end.

(** The world and the map that a trace leads to, from the world [w0] and
    the empty map, when every resolution in it is a call of [fn] in the
    world of its moment and returned what [fn] returns there; [None] when
    some resolution of the trace is not. *)
Fixpoint replay (fn : Context → string → W → lookup_result * W) (w0 : W)
    (tr : list event) : option (W * gmap string (list IP)) :=
  match tr with
  | [] => Some (w0, ∅)
  | e :: tr' =>
      match replay fn w0 tr' with
      | None => None
      | Some (w, c) =>
          match e with
          | EvResolve ctx host r =>
              if decide ((fn ctx host w).1 = r)
              then Some ((fn ctx host w).2, c) else None
          | EvMapWrite addr ips => Some (w, <[addr := ips]> c)
          | EvMapRange => Some ((map_range c w).2, c)
          | _ => Some (w, c)
          end
      end
  end.

(** ** Calls that overlap

    Between two calls of a method the goroutines of other callers, and the
    goroutine of the ticker, run.  What one goroutine does without the
    others seeing a state in between is: one call of the resolution
    capability, which is made with no lock held; one critical section,
    which the mutex keeps the others out of; one call of the logger; one
    read of a field that is never assigned. *)

(** Lines 111-113 of [LookupIP]. *)
Definition locked_store (addr : string) (ips : list IP) : M unit :=
  mu_Lock ;;
  cache_set addr ips ;;
  mu_Unlock.

(** Lines 120-122 of [Fetch]. *)
Definition locked_read (addr : string) : M (option (list IP)) :=
  mu_RLock ;;
  do hit <- cache_get addr;
  mu_RUnlock ;;
  ret hit.

(** Lines 131-136 of [Refresh]. *)
Definition locked_keys : M (list string) :=
  mu_RLock ;;
  do addrs <- cache_keys;
  mu_RUnlock ;;
  ret addrs.

(** [r.lookupTimeout], read in line 139. *)
Definition read_lookupTimeout : M Duration :=
  do s <- get;
  ret (lookupTimeout (res s)).

(** A call in progress: the step it takes next and, from the value of that
    step, the rest of the call. *)
Inductive thread : Type :=
| Finished
| Act {X : Type} (c : M X) (k : X → thread).

(** [LookupIP], followed by [k] on what it returns. *)
Definition T_LookupIP (ctx : Context) (addr : string)
    (k : lookup_result → thread) : thread :=
  Act (call_lookupIPFn ctx addr) (fun r =>
    match r.2 with
    | Some e => k ([], Some e)
    | None => Act (locked_store addr r.1) (fun _ => k (r.1, None))
    end).

(** [Fetch], followed by [k] on what it returns. *)
Definition T_Fetch (ctx : Context) (addr : string)
    (k : lookup_result → thread) : thread :=
  Act (locked_read addr) (fun hit =>
    match hit with
    | Some ips => k (ips, None)
    | None => T_LookupIP ctx addr k
    end).

(** The second loop of [Refresh], followed by [k]. *)
Fixpoint T_sweep (addrs : list string) (k : thread) : thread :=
  match addrs with
  | [] => k
  | addr :: rest =>
      Act read_lookupTimeout (fun timeout =>
        T_LookupIP (WithTimeout Background timeout) addr (fun r =>
          match r.2 with
          | Some e => Act (logger_Error e addr) (fun _ => T_sweep rest k)
          | None => T_sweep rest k
          end))
  end.

(** [Refresh], followed by [k]. *)
Definition T_Refresh (k : thread) : thread :=
  Act locked_keys (fun addrs => T_sweep addrs k).

(** [Stop], whose whole body is one critical section, followed by [k]. *)
Definition T_Stop (k : thread) : thread := Act Stop (fun _ => k).

Definition thread_of_op (o : op) : thread :=
  match o with
  | OpLookupIP ctx addr => T_LookupIP ctx addr (fun _ => Finished)
  | OpFetch ctx addr => T_Fetch ctx addr (fun _ => Finished)
  | OpRefresh => T_Refresh Finished
  | OpStop => T_Stop Finished
  | OpTick => T_Refresh (Act onRefreshed (fun _ => Finished))
  end.

(** A call run from its first step to its last with nothing in between. *)
Fixpoint run_thread (t : thread) : M unit :=
  match t with
  | Finished => ret tt
  | Act c k => do x <- c; run_thread (k x)
  end.

(** The next step of the call number [i] of the pool; a call that has
    finished, or a number that names no call, changes nothing. *)
Definition step (i : nat) (p : list thread) : M (list thread) :=
  match p !! i with
  | Some (Act c k) => do x <- c; ret (<[i := k x]> p)
  | _ => ret p
  end.

(** The calls of the pool, stepped in the order the scheduler picks. *)
Fixpoint schedule (picks : list nat) (p : list thread) : M (list thread) :=
  match picks with
  | [] => ret p
  | i :: rest => do p' <- step i p; schedule rest p'
  end.

(** The resolver is between two steps, its capability is [fn], and its
    trace is real: the world and the map are what the calls of [fn] and the
    writes of the trace lead to from the world [w0] and the empty map, and
    nothing was written that [fn] had not returned. *)
Definition real (fn : Context → string → W → lookup_result * W) (w0 : W)
    (st : State) : Prop :=
  quiescent st
  ∧ is_Some (logger (res st))
  ∧ lookupIPFn (res st) = fn
  ∧ replay fn w0 (trace st) = Some (world st, cache (res st))
  ∧ writes_resolved (trace st).

(** Whatever the other calls have done since the trace [tr], every step
    the call has still to take returns, keeps the trace real and loses no
    key of the map. *)
Fixpoint good (fn : Context → string → W → lookup_result * W) (w0 : W)
    (t : thread) (tr : list event) : Prop :=
  match t with
  | Finished => True
  | Act c k =>
      ∀ st, real fn w0 st → tr `suffix_of` trace st →
        ∃ x st', c st = Done x st'
               ∧ real fn w0 st'
               ∧ trace st `suffix_of` trace st'
               ∧ dom (cache (res st)) ⊆ dom (cache (res st'))
               ∧ good fn w0 (k x) (trace st')
  end.

End Resolver.

Arguments Done {W A} a s.
Arguments Panic {W A} msg.
Arguments Blocked {W A}.
Arguments Finished {W}.
Arguments Act {W X} c k.

(** ** A stub world

    The network of the specification's concrete scenario, with two more
    names: the resolver answers 10.0.0.1 for a.test, answers with no address
    at all for empty.test, answers 10.0.0.2 for flaky.test when the number
    of calls made so far is even, and fails in every other case.  The world
    is that number of calls, and the runtime ranges over a map in the order
    of [map_to_list]. *)
Module Stub.

Definition calls_made : Type := nat.

#[global] Instance runtime : GoRuntime calls_made.
Proof.
  refine {| map_range := fun m w => ((map_to_list m).*1, w) |}.
  intros m w. reflexivity.
Defined.

Definition ip_a : IP := [x0a; x00; x00; x01]%byte.
Definition ip_b : IP := [x0a; x00; x00; x02]%byte.

Definition lookupIPAddr (ctx : Context) (host : string) (w : calls_made)
  : (list IPAddr * option error) * calls_made :=
  if String.eqb host "a.test" then (([mkIPAddr ip_a ""], None), S w)
  else if String.eqb host "empty.test" then (([], None), S w)
  else if String.eqb host "flaky.test" && Nat.even w then (([mkIPAddr ip_b ""], None), S w)
  else (([], Some "no such host"), S w).

Definition resolver : net_Resolver := mkNetResolver lookupIPAddr.

(** The state [NewDNSResolver] builds with a 50ms interval and a 100ms
    timeout. *)
Definition fresh : State :=
  match NewDNSResolver 50000000 100000000 resolver (Some LogrusLogger) O with
  | Done _ s => s
  | _ => mkState O (mkResolver (new_lookupIPFn resolver) 0 None unlocked ∅ None)
                 (mkTicker 0 true) true [] []
  end.

(** The state after [ops], or [fresh] when they do not return. *)
Definition after (ops : list op) : State :=
  match run ops fresh with
  | Done _ s => s
  | _ => fresh
  end.

Definition cached_a : State := after [OpFetch Background "a.test"].
Definition cached_flaky : State := after [OpFetch Background "flaky.test"].
Definition cached_both : State :=
  after [OpFetch Background "flaky.test"; OpFetch Background "a.test"].

(** The same resolver built with a nil logger, and its state once
    flaky.test is cached. *)
Definition fresh_nil_logger : State :=
  mkState (world fresh)
          (mkResolver (lookupIPFn (res fresh)) (lookupTimeout (res fresh)) None
                      (lock (res fresh)) (cache (res fresh)) (closer (res fresh)))
          (ticker fresh) (ch_closed fresh) (log_out fresh) (trace fresh).

Definition cached_flaky_nil_logger : State :=
  match Fetch Background "flaky.test" fresh_nil_logger with
  | Done _ s => s
  | _ => fresh_nil_logger
  end.

(** [cached_a] while three other goroutines hold the read lock. *)
Definition cached_a_read_locked : State :=
  mkState (world cached_a)
          (mkResolver (lookupIPFn (res cached_a)) (lookupTimeout (res cached_a))
                      (logger (res cached_a)) (mkRWMutex false 3)
                      (cache (res cached_a)) (closer (res cached_a)))
          (ticker cached_a) (ch_closed cached_a) (log_out cached_a)
          (trace cached_a).

(** A resolver whose answers rotate: for every name, 10.0.0.1 when the
    number of calls made so far is even and 10.0.0.2 when it is odd. *)
Definition lookupIPAddr_rotating (ctx : Context) (host : string) (w : calls_made)
  : (list IPAddr * option error) * calls_made :=
  (([mkIPAddr (if Nat.even w then ip_a else ip_b) ""], None), S w).

Definition rotating : net_Resolver := mkNetResolver lookupIPAddr_rotating.

Definition fresh_rotating : State :=
  match NewDNSResolver 50000000 100000000 rotating (Some LogrusLogger) O with
  | Done _ s => s
  | _ => fresh
  end.

(** Two calls of [LookupIP] for r.test that overlap: the first resolves,
    the second resolves and stores, then the first stores. *)
Definition two_lookups : list thread :=
  thread_of_op <$> [OpLookupIP Background "r.test"; OpLookupIP Background "r.test"].

Definition raced : State :=
  match schedule [0; 1; 1; 0]%nat two_lookups fresh_rotating with
  | Done _ s => s
  | _ => fresh_rotating
  end.

End Stub.

(** * Properties *)

(** ** Traces *)

Lemma holds_app (evs tr : list event) :
  holds tr = Free → holds (evs ++ tr) = holds evs.
Proof.
  intros Hfree. induction evs as [|e evs IH]; [done|].
  destruct e; cbn; done.
Qed.

Lemma disciplined_app (evs tr : list event) :
  holds tr = Free →
  disciplined (evs ++ tr) = disciplined evs && disciplined tr.
Proof.
  intros Hfree. induction evs as [|e evs IH]; [done|].
  cbn. rewrite IH, holds_app by done. by rewrite andb_assoc.
Qed.

Lemma resolutions_app (evs tr : list event) :
  resolutions (evs ++ tr) = resolutions evs ++ resolutions tr.
Proof.
  induction evs as [|e evs IH]; [done|].
  destruct e; cbn; by rewrite ?IH.
Qed.

Lemma call_events_free ctx call : holds (call_events ctx call) = Free.
Proof. unfold call_events. by destruct (call.2.2). Qed.

Lemma call_events_disciplined ctx call : disciplined (call_events ctx call) = true.
Proof. unfold call_events. by destruct (call.2.2). Qed.

Lemma sweep_events_free ctx calls : holds (sweep_events ctx calls) = Free.
Proof.
  induction calls as [|call rest IH]; [done|].
  cbn. rewrite holds_app by apply call_events_free. done.
Qed.

Lemma sweep_events_disciplined ctx calls :
  disciplined (sweep_events ctx calls) = true.
Proof.
  induction calls as [|call rest IH]; [done|].
  cbn. rewrite disciplined_app by apply call_events_free.
  by rewrite IH, call_events_disciplined.
Qed.

Lemma sweep_events_resolutions ctx calls :
  resolutions (sweep_events ctx calls)
  = rev (map (λ call, (ctx, call.1, call.2)) calls).
Proof.
  induction calls as [|call rest IH]; [done|].
  cbn. rewrite resolutions_app, IH. f_equal.
  unfold call_events. by destruct (call.2.2).
Qed.

(** A successful call is what the map holds for its address afterwards,
    and a failed call leaves the entry of its address as it was, when no
    address is swept twice. *)
Lemma store_calls_other (c : gmap string (list IP)) calls h :
  h ∉ calls.*1 → foldl store_call c calls !! h = c !! h.
Proof.
  revert c. induction calls as [|[a r] rest IH]; intros c Hnot; [done|].
  cbn in *. apply not_elem_of_cons in Hnot as [Hne Hrest].
  rewrite IH by done. unfold store_call. cbn.
  destruct (r.2); [done|]. by rewrite lookup_insert_ne.
Qed.

Lemma store_calls_success (c : gmap string (list IP)) calls h ips :
  NoDup calls.*1 → (h, (ips, None)) ∈ calls →
  foldl store_call c calls !! h = Some ips.
Proof.
  revert c. induction calls as [|[a r] rest IH]; intros c Hnd Hin.
  - by apply elem_of_nil in Hin.
  - cbn in *. apply NoDup_cons in Hnd as [Hfresh Hnd].
    apply elem_of_cons in Hin as [Heq|Hin].
    + injection Heq as <- <-. rewrite store_calls_other by done.
      unfold store_call. cbn. apply lookup_insert_eq.
    + by apply IH.
Qed.

Lemma store_calls_failure (c : gmap string (list IP)) calls h ips e :
  NoDup calls.*1 → (h, (ips, Some e)) ∈ calls →
  foldl store_call c calls !! h = c !! h.
Proof.
  revert c. induction calls as [|[a r] rest IH]; intros c Hnd Hin.
  - by apply elem_of_nil in Hin.
  - cbn in *. apply NoDup_cons in Hnd as [Hfresh Hnd].
    apply elem_of_cons in Hin as [Heq|Hin].
    + injection Heq as <- <-. by rewrite store_calls_other.
    + rewrite IH by done. unfold store_call. cbn.
      destruct (r.2); [done|]. apply lookup_insert_ne.
      intros ->. apply Hfresh. apply list_elem_of_fmap. by exists (h, (ips, Some e)).
Qed.

Lemma store_calls_dom (c : gmap string (list IP)) calls :
  (∀ h, h ∈ calls.*1 → h ∈ dom c) → dom (foldl store_call c calls) = dom c.
Proof.
  revert c. induction calls as [|[a r] rest IH]; intros c Hsub; [done|].
  cbn in *. assert (dom (store_call c (a, r)) = dom c) as Hdom.
  { unfold store_call. cbn. destruct (r.2); [done|].
    rewrite dom_insert_L. apply subseteq_union_1_L, singleton_subseteq_l.
    apply Hsub, elem_of_cons. by left. }
  rewrite IH; [done|]. intros h Hh. rewrite Hdom.
  apply Hsub, elem_of_cons. by right.
Qed.

Lemma sweep_log_failure calls h ips e :
  (h, (ips, Some e)) ∈ calls → mkLogEntry e h refresh_msg ∈ sweep_log calls.
Proof.
  induction calls as [|call rest IH]; intros Hin.
  - by apply elem_of_nil in Hin.
  - cbn. apply elem_of_app. apply elem_of_cons in Hin as [<-|Hin].
    + right. cbn. apply list_elem_of_singleton. done.
    + left. by apply IH.
Qed.

Lemma store_calls_dom_mono (c : gmap string (list IP)) calls :
  dom c ⊆ dom (foldl store_call c calls).
Proof.
  revert c. induction calls as [|[a r] rest IH]; intros c; [done|].
  cbn. etrans; [|apply IH]. unfold store_call. cbn.
  destruct (r.2); [done|]. rewrite dom_insert_L. apply union_subseteq_r.
Qed.

Lemma store_call_last_success (c : gmap string (list IP)) call tr ctx :
  (∀ h, c !! h = last_success h tr) →
  ∀ h, store_call c call !! h = last_success h (call_events ctx call ++ tr).
Proof.
  intros Hinv h. destruct call as [a [ips [e|]]]; cbn; [done|].
  unfold store_call. cbn. destruct (String.eqb_spec a h) as [->|Hne].
  - apply lookup_insert_eq.
  - by rewrite lookup_insert_ne.
Qed.

Lemma store_calls_last_success (c : gmap string (list IP)) calls tr ctx :
  (∀ h, c !! h = last_success h tr) →
  ∀ h, foldl store_call c calls !! h = last_success h (sweep_events ctx calls ++ tr).
Proof.
  revert c tr. induction calls as [|call rest IH]; intros c tr Hinv h; [done|].
  cbn. rewrite <- app_assoc. apply IH. by apply store_call_last_success.
Qed.

Lemma last_success_is_Some h tr :
  is_Some (last_success h tr)
  ↔ ∃ ctx ips, (ctx, h, (ips, None)) ∈ resolutions tr.
Proof.
  induction tr as [|e tr IH].
  - split; [by intros [? ?]|]. intros (ctx & ips & Hin). by apply elem_of_nil in Hin.
  - destruct e as [| | | |ctx a [ips [err|]]| | | | |]; cbn; try done.
    + rewrite IH. split; intros (ctx' & ips' & Hin); exists ctx', ips'.
      * by apply elem_of_cons; right.
      * apply elem_of_cons in Hin as [Heq|Hin]; [congruence|done].
    + destruct (String.eqb_spec a h) as [->|Hne].
      * split; [|by eauto]. intros _. exists ctx, ips. apply elem_of_cons. by left.
      * rewrite IH. split; intros (ctx' & ips' & Hin); exists ctx', ips'.
        -- by apply elem_of_cons; right.
        -- apply elem_of_cons in Hin as [Heq|Hin]; [congruence|done].
Qed.

Section Facts.
Context {W : Type} `{!GoRuntime W}.
Implicit Types (st : State (W:=W)) (ctx : Context) (addr host : string).

(** Unfolds the monad and the primitives of the methods. *)
Ltac unfold_prims :=
  unfold LookupIP, Fetch, Refresh, Stop, call_lookupIPFn, cache_get,
    cache_set, cache_keys, logger_Error, call_closer, mu_Lock, mu_Unlock,
    mu_RLock, mu_RUnlock, emit, modify, get, panic, block, bind, ret.

(** Opens a state whose mutex is known to be free. *)
Ltac open_unlocked st Hlock :=
  destruct st as [?w [?fn ?lt ?lg [?wr ?rd] ?c ?cl] ?tk ?ch ?lo ?tr];
  cbn in *; injection Hlock as -> ->; cbn.

(** ** One call of each method, as an equation *)

Lemma LookupIP_failure ctx addr st ips e w' :
  lookupIPFn (res st) ctx addr (world st) = ((ips, Some e), w') →
  LookupIP ctx addr st =
    Done ([], Some e)
         (mkState w' (res st) (ticker st) (ch_closed st) (log_out st)
                  (EvResolve ctx addr (ips, Some e) :: trace st)).
Proof.
  intros Hfn. unfold_prims. rewrite Hfn. reflexivity.
Qed.

Lemma LookupIP_success ctx addr st ips w' :
  lock (res st) = unlocked →
  lookupIPFn (res st) ctx addr (world st) = ((ips, None), w') →
  LookupIP ctx addr st =
    Done (ips, None)
         (mkState w' (set_cache (<[addr := ips]> (cache (res st))) (res st))
                  (ticker st) (ch_closed st) (log_out st)
                  (EvUnlock :: EvMapWrite addr ips :: EvLock
                     :: EvResolve ctx addr (ips, None) :: trace st)).
Proof.
  intros Hlock Hfn. unfold_prims. rewrite Hfn.
  open_unlocked st Hlock. reflexivity.
Qed.

Lemma Fetch_hit ctx addr st ips :
  lock (res st) = unlocked →
  cache (res st) !! addr = Some ips →
  Fetch ctx addr st = Done (ips, None) (set_trace (read_events addr ++ trace st) st).
Proof.
  intros Hlock Hhit. unfold_prims.
  open_unlocked st Hlock. rewrite Hhit. reflexivity.
Qed.

Lemma Fetch_miss ctx addr st :
  lock (res st) = unlocked →
  cache (res st) !! addr = None →
  Fetch ctx addr st = LookupIP ctx addr (set_trace (read_events addr ++ trace st) st).
Proof.
  intros Hlock Hmiss. unfold Fetch, LookupIP. unfold_prims.
  open_unlocked st Hlock. rewrite Hmiss. reflexivity.
Qed.

Lemma Refresh_unfold st :
  lock (res st) = unlocked →
  Refresh st =
    Refresh_sweep (map_range (cache (res st)) (world st)).1
      (mkState (map_range (cache (res st)) (world st)).2 (res st) (ticker st)
               (ch_closed st) (log_out st)
               (EvRUnlock :: EvMapRange :: EvRLock :: trace st)).
Proof.
  intros Hlock. unfold Refresh. unfold_prims.
  open_unlocked st Hlock.
  destruct (map_range c w) as [addrs w']. reflexivity.
Qed.

Lemma Stop_running st f :
  lock (res st) = unlocked →
  closer (res st) = Some f →
  ch_closed st = false →
  Stop st =
    Done tt (mkState (world st) (set_closer None (res st))
                     (mkTicker (period (ticker st)) true) true (log_out st)
                     (EvUnlock :: EvCloser :: EvLock :: trace st)).
Proof.
  intros Hlock Hcl Hch. unfold_prims.
  open_unlocked st Hlock. subst. reflexivity.
Qed.

Lemma Stop_stopped st :
  lock (res st) = unlocked →
  closer (res st) = None →
  Stop st = Done tt (set_trace (EvUnlock :: EvLock :: trace st) st).
Proof.
  intros Hlock Hcl. unfold_prims.
  open_unlocked st Hlock. subst. reflexivity.
Qed.

Lemma logger_Error_run e addr st :
  is_Some (logger (res st)) →
  logger_Error e addr st =
    Done tt (mkState (world st) (res st) (ticker st) (ch_closed st)
                     (mkLogEntry e addr refresh_msg :: log_out st)
                     (EvLogError e addr :: trace st)).
Proof.
  intros [lgr Hlg]. unfold_prims. rewrite Hlg. reflexivity.
Qed.

(** The sweep calls the capability once per address of the snapshot, in
    order, and its whole effect is that of the calls it made. *)
Lemma Refresh_sweep_run addrs st :
  lock (res st) = unlocked →
  is_Some (logger (res st)) →
  ∃ calls w',
    calls.*1 = addrs
    ∧ Refresh_sweep addrs st =
        Done tt
          (mkState w'
             (set_cache (foldl store_call (cache (res st)) calls) (res st))
             (ticker st) (ch_closed st)
             (sweep_log calls ++ log_out st)
             (sweep_events (WithTimeout Background (lookupTimeout (res st))) calls
                ++ trace st)).
Proof.
  revert st. induction addrs as [|a rest IH]; intros st Hlock Hlg.
  - exists [], (world st). split; [done|].
    destruct st as [w [fn lt lg lk c cl] tk ch lo tr]. reflexivity.
  - cbn [Refresh_sweep]. unfold bind at 1. unfold get. cbv zeta.
    set (ctx := WithTimeout Background (lookupTimeout (res st))).
    destruct (lookupIPFn (res st) ctx a (world st)) as [[ips [e|]] w1] eqn:Hfn.
    + unfold bind at 1. rewrite (LookupIP_failure _ _ _ _ _ _ Hfn).
      unfold bind at 1. rewrite logger_Error_run by done.
      match goal with |- context [Refresh_sweep rest ?s] => set (st2 := s) end.
      destruct (IH st2 Hlock Hlg) as (calls & w' & Hcalls & Hrun).
      exists ((a, (ips, Some e)) :: calls), w'.
      split; [cbn; by rewrite Hcalls|].
      rewrite Hrun. subst st2. cbn. by rewrite <- !app_assoc.
    + unfold bind at 1. rewrite (LookupIP_success _ _ _ _ _ Hlock Hfn).
      unfold bind at 1. unfold ret at 1.
      match goal with |- context [Refresh_sweep rest ?s] => set (st2 := s) end.
      destruct (IH st2 Hlock Hlg) as (calls & w' & Hcalls & Hrun).
      exists ((a, (ips, None)) :: calls), w'.
      split; [cbn; by rewrite Hcalls|].
      rewrite Hrun. subst st2. cbn. by rewrite <- !app_assoc.
Qed.

Lemma Fetch_each_hit ctxs addr st ips :
  lock (res st) = unlocked →
  cache (res st) !! addr = Some ips →
  ∃ tr', Fetch_each ctxs addr st
           = Done (replicate (length ctxs) (ips, None)) (set_trace tr' st)
         ∧ resolutions tr' = resolutions (trace st).
Proof.
  intros Hlock Hhit. revert st Hlock Hhit.
  induction ctxs as [|ctx ctxs IH]; intros st Hlock Hhit.
  - exists (trace st). split; [|done]. by destruct st.
  - cbn [Fetch_each length replicate]. unfold bind at 1.
    rewrite (Fetch_hit ctx addr st ips Hlock Hhit).
    destruct (IH (set_trace (read_events addr ++ trace st) st)) as (tr' & Hrun & Hres);
      [done|done|].
    exists tr'. unfold bind. rewrite Hrun. split; [reflexivity|].
    rewrite Hres. reflexivity.
Qed.

Lemma Stop_repeat n st :
  lock (res st) = unlocked →
  closer (res st) = None →
  ∃ tr', run (replicate n OpStop) st = Done tt (set_trace tr' st)
         ∧ resolutions tr' = resolutions (trace st).
Proof.
  revert st. induction n as [|n IH]; intros st Hlock Hcl.
  - exists (trace st). split; [|done]. by destruct st.
  - cbn [replicate run exec]. unfold bind.
    rewrite (Stop_stopped st Hlock Hcl).
    destruct (IH (set_trace (EvUnlock :: EvLock :: trace st) st)) as (tr' & Hrun & Hres);
      [done|done|].
    exists tr'. rewrite Hrun. split; [reflexivity|]. by rewrite Hres.
Qed.

(** ** The claims about a single call *)

(** C1. When the resolution capability succeeds for a hostname with the
    address list [L], [LookupIP] returns [L] with the nil error, and the
    state it returns in already has [L] stored as the cache entry of that
    hostname, in place of whatever was there, also when [L] is empty. *)
Theorem LookupIP_success_stores_then_returns ctx host st (L : list IP) w' :
  lock (res st) = unlocked →
  lookupIPFn (res st) ctx host (world st) = ((L, None), w') →
  ∃ st', LookupIP ctx host st = Done (L, None) st'
       ∧ cache (res st') = <[host := L]> (cache (res st))
       ∧ cache (res st') !! host = Some L
       ∧ trace st' = EvUnlock :: EvMapWrite host L :: EvLock
                       :: EvResolve ctx host (L, None) :: trace st
       ∧ world st' = w'.
Proof.
  intros Hlock Hfn. eexists. split; [by apply LookupIP_success|].
  cbn. split_and!; try done. apply lookup_insert_eq.
Qed.

(** C2. When the resolution capability fails for a hostname, [LookupIP]
    returns the nil list with that error and leaves the resolver, and so
    the whole cache mapping, as it was; a hostname that was cached with a
    list [L] is still fetched as [L] afterwards. *)
Theorem LookupIP_failure_keeps_cache ctx host st (ips : list IP) e w' :
  lookupIPFn (res st) ctx host (world st) = ((ips, Some e), w') →
  ∃ st', LookupIP ctx host st = Done ([], Some e) st'
       ∧ res st' = res st
       ∧ cache (res st') = cache (res st)
       ∧ ∀ ctx' L, lock (res st) = unlocked →
                   cache (res st) !! host = Some L →
                   ∃ st'', Fetch ctx' host st' = Done (L, None) st''
                         ∧ cache (res st'') = cache (res st).
Proof.
  intros Hfn. eexists. split; [by apply LookupIP_failure|].
  cbn. split_and!; try done.
  intros ctx' L Hlock Hhit. eexists. split; [by apply Fetch_hit|done].
Qed.

(** C3. [Fetch] of a hostname that is not in the cache calls the
    resolution capability exactly once and returns what that call returned:
    its list with the nil error when it succeeded, the nil list with its
    error when it failed.  No other error is ever produced. *)
Theorem Fetch_miss_is_one_resolution ctx host st (r : lookup_result) w' :
  lock (res st) = unlocked →
  cache (res st) !! host = None →
  lookupIPFn (res st) ctx host (world st) = (r, w') →
  ∃ st', Fetch ctx host st
           = Done (match r.2 with Some _ => [] | None => r.1 end, r.2) st'
       ∧ resolutions (trace st') = (ctx, host, r) :: resolutions (trace st)
       ∧ world st' = w'.
Proof.
  intros Hlock Hmiss Hfn. rewrite Fetch_miss by done.
  destruct r as [ips [e|]].
  - eexists. split; [by apply LookupIP_failure|]. done.
  - eexists. split; [by apply LookupIP_success|]. done.
Qed.

(** C4. After a successful [LookupIP] of a hostname, the next [Fetch] of it
    returns the same list with the nil error, straight from the cache: no
    call to the resolution capability is made and the outside world is not
    touched. *)
Theorem Fetch_after_LookupIP_hits ctx ctx' host st (L : list IP) w' :
  lock (res st) = unlocked →
  lookupIPFn (res st) ctx host (world st) = ((L, None), w') →
  ∃ st1 st2, LookupIP ctx host st = Done (L, None) st1
           ∧ Fetch ctx' host st1 = Done (L, None) st2
           ∧ resolutions (trace st2) = resolutions (trace st1)
           ∧ world st2 = world st1
           ∧ cache (res st2) = cache (res st1).
Proof.
  intros Hlock Hfn. eexists. eexists.
  split; [by apply LookupIP_success|].
  split; [apply Fetch_hit; cbn; [done|apply lookup_insert_eq]|done].
Qed.

(** C10. With the capability [NewDNSResolver] builds, a resolution that
    succeeds with no address makes [LookupIP] store the empty list, and
    every [Fetch] of that hostname that follows is a hit: each returns the
    empty list with the nil error, and none calls the resolution
    capability. *)
Theorem empty_answer_is_cached_and_served resolver ctx host st w' ctxs :
  lock (res st) = unlocked →
  lookupIPFn (res st) = new_lookupIPFn resolver →
  LookupIPAddr resolver ctx host (world st) = (([], None), w') →
  ∃ st1 st2, LookupIP ctx host st = Done ([], None) st1
           ∧ cache (res st1) !! host = Some []
           ∧ Fetch_each ctxs host st1
               = Done (replicate (length ctxs) ([], None)) st2
           ∧ resolutions (trace st2) = resolutions (trace st1)
           ∧ world st2 = w'
           ∧ cache (res st2) !! host = Some [].
Proof.
  intros Hlock Hfn Hnet.
  assert (lookupIPFn (res st) ctx host (world st) = (([], None), w')) as Hcap.
  { rewrite Hfn. unfold new_lookupIPFn. by rewrite Hnet. }
  pose proof (LookupIP_success ctx host st [] w' Hlock Hcap) as Hrun.
  set (st1 := mkState _ _ _ _ _ _) in Hrun.
  assert (cache (res st1) !! host = Some []) as Hhit by apply lookup_insert_eq.
  destruct (Fetch_each_hit ctxs host st1 [] Hlock Hhit) as (tr' & Heach & Hres).
  exists st1, (set_trace tr' st1). split_and!; done.
Qed.

(** C7. [Stop] on a quiescent resolver returns; any number of further calls
    return as well, without a panic, and leave the resolver, the ticker,
    the channel, the log and the world exactly as the first call left them.
    No call of [Stop] changes the cache mapping. *)
Theorem Stop_idempotent st n :
  quiescent st →
  ∃ st1 st2, Stop st = Done tt st1
           ∧ run (replicate n OpStop) st1 = Done tt st2
           ∧ Stop st1 = Done tt (set_trace (EvUnlock :: EvLock :: trace st1) st1)
           ∧ st2 = set_trace (trace st2) st1
           ∧ closer (res st1) = None
           ∧ cache (res st1) = cache (res st)
           ∧ cache (res st2) = cache (res st).
Proof.
  intros [Hlock Hopen].
  assert (∃ st1, Stop st = Done tt st1 ∧ lock (res st1) = unlocked
                 ∧ closer (res st1) = None ∧ cache (res st1) = cache (res st))
    as (st1 & Hrun & Hlock1 & Hcl1 & Hcache).
  { destruct (closer (res st)) as [f|] eqn:Hcl.
    - eexists. split; [apply (Stop_running st f Hlock Hcl); by apply Hopen|].
      cbn. by rewrite Hlock.
    - eexists. split; [by apply Stop_stopped|].
      cbn. by rewrite Hlock, Hcl. }
  destruct (Stop_repeat n st1 Hlock1 Hcl1) as (tr' & Hrun2 & _).
  exists st1, (set_trace tr' st1).
  split_and!; try done. by apply Stop_stopped.
Qed.

(** C8. The constructor replaces a refresh interval that is zero or
    negative by 3 seconds and a lookup timeout that is zero or negative by
    10 seconds, and keeps positive values as they are; it returns the new
    resolver, with an empty cache, and the nil error. *)
Theorem NewDNSResolver_defaults freq timeout resolver lg (w : W) :
  ∃ st, NewDNSResolver freq timeout resolver lg w = Done None st
      ∧ period (ticker st) = (if decide (freq ≤ 0)%Z then 3000000000 else freq)
      ∧ lookupTimeout (res st)
          = (if decide (timeout ≤ 0)%Z then 10000000000 else timeout)
      ∧ cache (res st) = ∅.
Proof.
  unfold NewDNSResolver, NewTicker; cbv zeta.
  destruct (freq <=? 0)%Z eqn:Ef;
    [change (defaultFreq <=? 0)%Z with false | rewrite Ef];
    (eexists; split; [reflexivity|]); cbn;
    destruct (Z.leb_spec timeout 0);
    first [apply Z.leb_le in Ef | apply Z.leb_gt in Ef];
    repeat case_decide; first [lia | done].
Qed.

(** ** Lock discipline *)

Lemma LookupIP_discipline ctx addr st :
  lock (res st) = unlocked → follows_discipline (LookupIP ctx addr) st.
Proof.
  intros Hlock.
  destruct (lookupIPFn (res st) ctx addr (world st)) as [[ips [e|]] w'] eqn:Hfn.
  - do 2 eexists. exists [EvResolve ctx addr (ips, Some e)].
    split; [by apply LookupIP_failure|]. done.
  - do 2 eexists.
    exists [EvUnlock; EvMapWrite addr ips; EvLock; EvResolve ctx addr (ips, None)].
    split; [by apply LookupIP_success|]. done.
Qed.

Lemma Fetch_discipline ctx addr st :
  lock (res st) = unlocked → follows_discipline (Fetch ctx addr) st.
Proof.
  intros Hlock. destruct (cache (res st) !! addr) as [ips|] eqn:Hc.
  - do 2 eexists. exists (read_events addr).
    split; [by apply Fetch_hit|]. done.
  - unfold follows_discipline. rewrite Fetch_miss by done.
    destruct (LookupIP_discipline ctx addr
                (set_trace (read_events addr ++ trace st) st) Hlock)
      as (a & st' & evs & Hrun & Htr & Hdisc & Hfree).
    exists a, st', (evs ++ read_events addr).
    split; [done|]. split; [by rewrite Htr, <- app_assoc|].
    rewrite disciplined_app, holds_app by done. by rewrite Hdisc.
Qed.

Lemma Refresh_discipline st :
  lock (res st) = unlocked → is_Some (logger (res st)) →
  follows_discipline Refresh st.
Proof.
  intros Hlock Hlg. unfold follows_discipline. rewrite Refresh_unfold by done.
  destruct (map_range (cache (res st)) (world st)) as [addrs w1]. cbn.
  match goal with |- context [Refresh_sweep addrs ?s] => set (st1 := s) end.
  destruct (Refresh_sweep_run addrs st1 Hlock Hlg) as (calls & w' & _ & Hrun).
  set (ctx := WithTimeout Background (lookupTimeout (res st1))) in Hrun.
  do 2 eexists. exists (sweep_events ctx calls ++ [EvRUnlock; EvMapRange; EvRLock]).
  split; [exact Hrun|]. split; [cbn [trace]; by rewrite <- app_assoc|].
  rewrite disciplined_app, holds_app by done.
  by rewrite sweep_events_disciplined, sweep_events_free.
Qed.

Lemma Stop_discipline st : quiescent st → follows_discipline Stop st.
Proof.
  intros [Hlock Hopen]. destruct (closer (res st)) as [f|] eqn:Hcl.
  - do 2 eexists. exists [EvUnlock; EvCloser; EvLock].
    split; [apply (Stop_running st f Hlock Hcl); by apply Hopen|]. done.
  - do 2 eexists. exists [EvUnlock; EvLock].
    split; [by apply Stop_stopped|]. done.
Qed.

(** C9. Every method, called on a quiescent resolver, returns, and the
    events it produced obey the lock discipline: the map is looked up and
    ranged over under the read lock only, it is written and the closer is
    run under the write lock only, and every call to the resolution
    capability is made with no lock held. *)
Theorem methods_follow_lock_discipline ctx addr st :
  quiescent st →
  is_Some (logger (res st)) →
  follows_discipline (LookupIP ctx addr) st
  ∧ follows_discipline (Fetch ctx addr) st
  ∧ follows_discipline Refresh st
  ∧ follows_discipline Stop st.
Proof.
  intros Hq Hlg. pose proof Hq as [Hlock _]. split_and!.
  - by apply LookupIP_discipline.
  - by apply Fetch_discipline.
  - by apply Refresh_discipline.
  - by apply Stop_discipline.
Qed.

(** ** The invariant of the cache *)

Lemma LookupIP_keeps ctx addr st :
  cache_inv st → keeps_cache (LookupIP ctx addr) st.
Proof.
  intros ([Hlock Hopen] & Hlg & Hlast).
  destruct (lookupIPFn (res st) ctx addr (world st)) as [[ips [e|]] w'] eqn:Hfn.
  - do 2 eexists. split; [by apply LookupIP_failure|]. done.
  - do 2 eexists. split; [by apply LookupIP_success|]. cbn.
    split; [|rewrite dom_insert_L; apply union_subseteq_r].
    split_and!; try done. intros h. cbn.
    destruct (String.eqb_spec addr h) as [->|Hne].
    + apply lookup_insert_eq.
    + by rewrite lookup_insert_ne.
Qed.

Lemma Fetch_keeps ctx addr st :
  cache_inv st → keeps_cache (Fetch ctx addr) st.
Proof.
  intros Hinv. pose proof Hinv as ([Hlock Hopen] & Hlg & Hlast).
  destruct (cache (res st) !! addr) as [ips|] eqn:Hc.
  - do 2 eexists. split; [by apply Fetch_hit|]. done.
  - unfold keeps_cache. rewrite Fetch_miss by done.
    by apply (LookupIP_keeps ctx addr (set_trace (read_events addr ++ trace st) st)).
Qed.

Lemma Refresh_keeps st : cache_inv st → keeps_cache Refresh st.
Proof.
  intros ([Hlock Hopen] & Hlg & Hlast).
  unfold keeps_cache. rewrite Refresh_unfold by done.
  destruct (map_range (cache (res st)) (world st)) as [addrs w1]. cbn.
  match goal with |- context [Refresh_sweep addrs ?s] => set (st1 := s) end.
  destruct (Refresh_sweep_run addrs st1 Hlock Hlg) as (calls & w' & _ & Hrun).
  do 2 eexists. split; [exact Hrun|]. cbn.
  split; [|apply store_calls_dom_mono].
  split_and!; try done. by apply store_calls_last_success.
Qed.

Lemma Stop_keeps st : cache_inv st → keeps_cache Stop st.
Proof.
  intros ([Hlock Hopen] & Hlg & Hlast).
  destruct (closer (res st)) as [f|] eqn:Hcl.
  - do 2 eexists. split; [apply (Stop_running st f Hlock Hcl); by apply Hopen|].
    split; [|done]. split_and!; try done.
    split; [done|]. cbn. by intros [? ?].
  - do 2 eexists. split; [by apply Stop_stopped|].
    split; [|done]. split_and!; try done.
    split; [done|]. cbn. rewrite Hcl. by intros [? ?].
Qed.

Lemma run_keeps ops st : cache_inv st → keeps_cache (run ops) st.
Proof.
  revert st. induction ops as [|o ops IH]; intros st Hinv.
  - by exists tt, st.
  - assert (keeps_cache (exec o) st) as (a & st1 & Hrun1 & Hinv1 & Hdom1).
    { destruct o as [ctx addr|ctx addr| | |]; cbn [exec].
      - destruct (LookupIP_keeps ctx addr st Hinv) as (r & st1 & Hrun & ?).
        exists tt, st1. unfold bind. by rewrite Hrun.
      - destruct (Fetch_keeps ctx addr st Hinv) as (r & st1 & Hrun & ?).
        exists tt, st1. unfold bind. by rewrite Hrun.
      - by apply Refresh_keeps.
      - by apply Stop_keeps.
      - destruct (Refresh_keeps st Hinv) as ([] & st1 & Hrun & ?).
        exists tt, st1. unfold goroutine_turn, onRefreshed, bind, ret.
        by rewrite Hrun. }
    destruct (IH st1 Hinv1) as (b & st2 & Hrun2 & Hinv2 & Hdom2).
    exists b, st2. cbn [run]. unfold bind. rewrite Hrun1, Hrun2.
    split_and!; try done. by etrans.
Qed.

Lemma NewDNSResolver_run freq timeout resolver lg (w : W) :
  ∃ st, NewDNSResolver freq timeout resolver lg w = Done None st
      ∧ quiescent st ∧ logger (res st) = lg
      ∧ cache (res st) = ∅ ∧ trace st = [].
Proof.
  unfold NewDNSResolver, NewTicker; cbv zeta.
  destruct (freq <=? 0)%Z eqn:Ef;
    [change (defaultFreq <=? 0)%Z with false | rewrite Ef];
    (eexists; split; [reflexivity|]); done.
Qed.

(** * Further properties of the code *)

(** ** The closure around the resolver *)

Lemma copy_IPs_fills addrs (pre : list IP) :
  copy_IPs (length pre) addrs (pre ++ make_IPs (length addrs))
  = Some (pre ++ map IPAddr_IP addrs).
Proof.
  revert pre. induction addrs as [|ia rest IH]; intros pre.
  - reflexivity.
  - cbn [copy_IPs length make_IPs replicate map].
    rewrite decide_True by (rewrite length_app; cbn; lia).
    rewrite insert_app_r_alt by lia. rewrite Nat.sub_diag. cbn [insert list_insert].
    rewrite (cons_middle (IPAddr_IP ia) pre), (cons_middle (IPAddr_IP ia) pre (map _ _)).
    rewrite !app_assoc.
    replace (S (length pre)) with (length (pre ++ [IPAddr_IP ia]))
      by (rewrite length_app; cbn; lia).
    apply IH.
Qed.

(** X1. The copy loop of [lookupIPFn] never stores out of range, and what it
    builds is the address of every [IPAddr] the resolver returned, one per
    entry and in the same order; on an error the closure returns the nil
    list and that error. *)
Theorem lookupIPFn_loop_copies_every_address resolver ctx host (w : W) :
  lookupIPFn_loop resolver ctx host w
  = Some (new_lookupIPFn resolver ctx host w)
  ∧ match (LookupIPAddr resolver ctx host w).1.2 with
    | None =>
        length (new_lookupIPFn resolver ctx host w).1.1
        = length (LookupIPAddr resolver ctx host w).1.1
        ∧ ∀ i, (new_lookupIPFn resolver ctx host w).1.1 !! i
               = IPAddr_IP <$> (LookupIPAddr resolver ctx host w).1.1 !! i
    | Some e => (new_lookupIPFn resolver ctx host w).1 = ([], Some e)
    end.
Proof.
  unfold lookupIPFn_loop, new_lookupIPFn.
  destruct (LookupIPAddr resolver ctx host w) as [[addrs [e|]] w']; cbn.
  - done.
  - pose proof (copy_IPs_fills addrs []) as Hcopy. cbn in Hcopy.
    rewrite Hcopy. split_and!; [done|by rewrite length_map|].
    intros i. apply list_lookup_fmap.
Qed.

(** ** The constructor *)

(** X2. Whatever interval and timeout it is given, the constructor returns
    without a panic and without touching the network: the ticker runs with
    a positive period, the lookup timeout is positive, the channel is open,
    the [closer] is set, nothing is locked or logged, and the goroutine has
    nothing to leave its loop for. *)
Theorem NewDNSResolver_starts_idle freq timeout resolver lg (w : W) :
  ∃ st, NewDNSResolver freq timeout resolver lg w = Done None st
      ∧ world st = w
      ∧ (0 < period (ticker st))%Z
      ∧ (0 < lookupTimeout (res st))%Z
      ∧ ticker_stopped (ticker st) = false
      ∧ ch_closed st = false
      ∧ closer (res st) = Some StopTickerCloseCh
      ∧ lock (res st) = unlocked
      ∧ logger (res st) = lg
      ∧ lookupIPFn (res st) = new_lookupIPFn resolver
      ∧ log_out st = []
      ∧ trace st = []
      ∧ goroutine_turn case_ch st = Blocked.
Proof.
  unfold NewDNSResolver, NewTicker; cbv zeta.
  destruct (freq <=? 0)%Z eqn:Ef;
    [change (defaultFreq <=? 0)%Z with false | rewrite Ef];
    (eexists; split; [reflexivity|]); cbn;
    destruct (Z.leb_spec timeout 0);
    first [apply Z.leb_le in Ef | apply Z.leb_gt in Ef];
    split_and!; first [done | lia].
Qed.

(** ** Summaries of the calls *)

Lemma Refresh_run st :
  lock (res st) = unlocked →
  is_Some (logger (res st)) →
  ∃ calls w',
    calls.*1 = (map_range (cache (res st)) (world st)).1
    ∧ Refresh st =
        Done tt
          (mkState w'
             (set_cache (foldl store_call (cache (res st)) calls) (res st))
             (ticker st) (ch_closed st)
             (sweep_log calls ++ log_out st)
             (sweep_events (WithTimeout Background (lookupTimeout (res st))) calls
                ++ EvRUnlock :: EvMapRange :: EvRLock :: trace st)).
Proof.
  intros Hlock Hlg. rewrite Refresh_unfold by done.
  destruct (map_range (cache (res st)) (world st)) as [addrs w1]. cbn [fst snd].
  match goal with |- context [Refresh_sweep addrs ?s] => set (st1 := s) end.
  destruct (Refresh_sweep_run addrs st1 Hlock Hlg) as (calls & w' & Hcalls & Hrun).
  exists calls, w'. split; [done|]. exact Hrun.
Qed.

(** Two returns of the same call are the same return. *)
Ltac same_return Hrun Heq :=
  rewrite Heq in Hrun; injection Hrun as <- <-.

Lemma LookupIP_summary ctx addr st :
  cache_inv st → summary (LookupIP ctx addr) false st.
Proof.
  intros Hinv.
  destruct (LookupIP_keeps ctx addr st Hinv) as (a & st' & Hrun & Hinv' & _).
  pose proof Hinv as ([Hlock _] & _ & _).
  exists a, st'.
  destruct (lookupIPFn (res st) ctx addr (world st)) as [[ips [e|]] w'] eqn:Hfn.
  - pose proof Hrun as Hsame.
    same_return Hsame (LookupIP_failure _ _ _ _ _ _ Hfn).
    exists [EvResolve ctx addr (ips, Some e)].
    split_and!; try done. unfold stop_effect. cbn. by destruct (closer (res st)).
  - pose proof Hrun as Hsame.
    same_return Hsame (LookupIP_success _ _ _ _ _ Hlock Hfn).
    exists [EvUnlock; EvMapWrite addr ips; EvLock; EvResolve ctx addr (ips, None)].
    split_and!; try done. unfold stop_effect. cbn. by destruct (closer (res st)).
Qed.

Lemma read_only_summary st evs :
  cache_inv st →
  disciplined evs = true → holds evs = Free → resolutions evs = [] →
  (∀ h, last_success h (evs ++ trace st) = last_success h (trace st)) →
  cache_inv (set_trace (evs ++ trace st) st).
Proof.
  intros (Hq & Hlg & Hlast) _ _ _ Hsame. split_and!; try done.
  intros h. cbn. by rewrite Hsame.
Qed.

Lemma Fetch_summary ctx addr st :
  cache_inv st → summary (Fetch ctx addr) false st.
Proof.
  intros Hinv. pose proof Hinv as ([Hlock _] & _ & _).
  destruct (cache (res st) !! addr) as [ips|] eqn:Hc.
  - exists (ips, None), (set_trace (read_events addr ++ trace st) st), (read_events addr).
    split; [by apply Fetch_hit|].
    split; [by apply read_only_summary|].
    split_and!; try done. unfold stop_effect. cbn. by destruct (closer (res st)).
  - assert (cache_inv (set_trace (read_events addr ++ trace st) st)) as Hinv1
      by by apply read_only_summary.
    destruct (LookupIP_summary ctx addr _ Hinv1)
      as (a & st' & evs & Hrun & Hinv' & Htr & Hdisc & Hfree & Hcfg & Hstop).
    exists a, st', (evs ++ read_events addr).
    split; [by rewrite Fetch_miss|].
    split; [done|]. split; [by rewrite Htr, <- app_assoc|].
    rewrite disciplined_app, holds_app by done. rewrite Hdisc.
    split_and!; done.
Qed.

Lemma Refresh_summary st : cache_inv st → summary Refresh false st.
Proof.
  intros Hinv.
  destruct (Refresh_keeps st Hinv) as (a & st' & Hrun & Hinv' & _).
  pose proof Hinv as ([Hlock _] & Hlg & _).
  destruct (Refresh_run st Hlock Hlg) as (calls & w' & _ & Heq).
  pose proof Hrun as Hsame. same_return Hsame Heq.
  set (ctx := WithTimeout Background (lookupTimeout (res st))) in *.
  exists tt. eexists. exists (sweep_events ctx calls ++ [EvRUnlock; EvMapRange; EvRLock]).
  split; [exact Heq|]. split; [done|].
  split; [cbn [trace]; by rewrite <- app_assoc|].
  rewrite disciplined_app, holds_app by done.
  rewrite sweep_events_disciplined, sweep_events_free.
  split_and!; try done. unfold stop_effect. cbn. by destruct (closer (res st)).
Qed.

Lemma Stop_summary st : cache_inv st → summary Stop true st.
Proof.
  intros Hinv.
  destruct (Stop_keeps st Hinv) as (a & st' & Hrun & Hinv' & _).
  pose proof Hinv as ([Hlock Hopen] & _ & _).
  exists a, st'. destruct (closer (res st)) as [f|] eqn:Hcl.
  - assert (ch_closed st = false) as Hch by by apply Hopen.
    pose proof Hrun as Hsame. same_return Hsame (Stop_running st f Hlock Hcl Hch).
    exists [EvUnlock; EvCloser; EvLock].
    split_and!; try done. unfold stop_effect. by rewrite Hcl.
  - pose proof Hrun as Hsame. same_return Hsame (Stop_stopped st Hlock Hcl).
    exists [EvUnlock; EvLock].
    split_and!; try done. unfold stop_effect. by rewrite Hcl.
Qed.

Lemma summary_discard {A} (c : M A) stop st :
  summary c stop st → summary (bind c (λ _, ret tt)) stop st.
Proof.
  intros (a & st' & evs & Hrun & Hrest). exists tt, st', evs.
  unfold bind, ret. by rewrite Hrun.
Qed.

Lemma exec_summary o st : cache_inv st → summary (exec o) (is_stop o) st.
Proof.
  intros Hinv. destruct o as [ctx addr|ctx addr| | |]; cbn [exec is_stop].
  - by apply summary_discard, LookupIP_summary.
  - by apply summary_discard, Fetch_summary.
  - by apply Refresh_summary.
  - by apply Stop_summary.
  - apply summary_discard. unfold goroutine_turn, onRefreshed.
    destruct (Refresh_summary st Hinv) as (a & st' & evs & Hrun & Hrest).
    exists true, st', evs. unfold bind, ret. by rewrite Hrun.
Qed.

Lemma same_config_trans st1 st2 st3 :
  same_config st1 st2 → same_config st2 st3 → same_config st1 st3.
Proof.
  intros (? & ? & ? & ?) (? & ? & ? & ?). unfold same_config.
  split_and!; congruence.
Qed.

Lemma stop_effect_trans b1 b2 st1 st2 st3 :
  stop_effect b1 st1 st2 → stop_effect b2 st2 st3 →
  stop_effect (b1 || b2) st1 st3.
Proof.
  unfold stop_effect. intros H12 H23.
  destruct (closer (res st1)) as [f|] eqn:Hcl1.
  - destruct b1; cbn.
    + destruct H12 as (Hc & Hch & Htk). rewrite Hc in H23.
      destruct H23 as (Hc' & Hch' & Htk'). split_and!; congruence.
    + destruct H12 as (Hc & Hch & Htk). rewrite Hc in H23.
      destruct b2; destruct H23 as (Hc' & Hch' & Htk'); split_and!; congruence.
  - assert (closer (res st2) = None ∧ ch_closed st2 = ch_closed st1
            ∧ ticker st2 = ticker st1) as (Hc & Hch & Htk).
    { destruct b1; destruct H12 as (? & ? & ?); by split_and!. }
    rewrite Hc in H23.
    assert (closer (res st3) = closer (res st2) ∧ ch_closed st3 = ch_closed st2
            ∧ ticker st3 = ticker st2) as (Hc' & Hch' & Htk').
    { destruct b2; destruct H23 as (? & ? & ?); split_and!; congruence. }
    destruct (b1 || b2); split_and!; congruence.
Qed.

(** Any sequence of calls returns, and all that a single call keeps is kept
    by the sequence. *)
Lemma run_summary ops st : cache_inv st → summary (run ops) (has_stop ops) st.
Proof.
  revert st. induction ops as [|o ops IH]; intros st Hinv.
  - exists tt, st, []. split_and!; try done.
    unfold stop_effect. by destruct (closer (res st)).
  - destruct (exec_summary o st Hinv)
      as ([] & st1 & evs1 & Hrun1 & Hinv1 & Htr1 & Hd1 & Hf1 & Hcfg1 & Hstop1).
    destruct (IH st1 Hinv1)
      as ([] & st2 & evs2 & Hrun2 & Hinv2 & Htr2 & Hd2 & Hf2 & Hcfg2 & Hstop2).
    exists tt, st2, (evs2 ++ evs1). cbn [run has_stop existsb].
    split; [unfold bind; by rewrite Hrun1|].
    split; [done|]. split; [by rewrite Htr2, Htr1, app_assoc|].
    rewrite disciplined_app, holds_app by done. rewrite Hd1, Hd2.
    split_and!; try done.
    + by eapply same_config_trans.
    + by eapply stop_effect_trans.
Qed.

Lemma last_success_app h (evs tr : list event) :
  last_success h (evs ++ tr)
  = match last_success h evs with
    | Some ips => Some ips
    | None => last_success h tr
    end.
Proof.
  induction evs as [|e evs IH]; [done|].
  destruct e as [| | | |ctx a [ips [err|]]| | | | |]; cbn; try done.
  by destruct (String.eqb a h).
Qed.

Lemma NewDNSResolver_fresh freq timeout resolver lg (w : W) :
  is_Some lg →
  ∃ st, NewDNSResolver freq timeout resolver lg w = Done None st
      ∧ cache_inv st
      ∧ trace st = []
      ∧ closer (res st) = Some StopTickerCloseCh
      ∧ ch_closed st = false
      ∧ ticker_stopped (ticker st) = false
      ∧ logger (res st) = lg
      ∧ lookupIPFn (res st) = new_lookupIPFn resolver.
Proof.
  intros Hlg. unfold NewDNSResolver, NewTicker; cbv zeta.
  destruct (freq <=? 0)%Z eqn:Ef;
    [change (defaultFreq <=? 0)%Z with false | rewrite Ef];
    (eexists; split; [reflexivity|]); by split_and!.
Qed.

(** ** Sequences of calls *)

(** X8. From the constructor on, the channel is closed, the ticker is
    stopped and the [closer] field is nil exactly when [Stop] has been
    called, however many times and whatever else was called; and the
    goroutine can leave its loop exactly then. *)
Theorem closed_exactly_when_stopped freq timeout resolver lg (w : W) ops :
  is_Some lg →
  ∃ st0 st,
    NewDNSResolver freq timeout resolver lg w = Done None st0
    ∧ run ops st0 = Done tt st
    ∧ ch_closed st = has_stop ops
    ∧ ticker_stopped (ticker st) = has_stop ops
    ∧ (closer (res st) = None ↔ has_stop ops = true)
    ∧ goroutine_turn case_ch st
      = (if has_stop ops then Done false st else Blocked).
Proof.
  intros Hlg.
  destruct (NewDNSResolver_fresh freq timeout resolver lg w Hlg)
    as (st0 & Hnew & Hinv0 & _ & Hcl0 & Hch0 & Htk0 & _).
  destruct (run_summary ops st0 Hinv0)
    as ([] & st & evs & Hrun & _ & _ & _ & _ & _ & Hstop).
  exists st0, st. split; [done|]. split; [done|].
  unfold stop_effect in Hstop. rewrite Hcl0 in Hstop.
  unfold goroutine_turn, bind, get, ret, block.
  destruct (has_stop ops); destruct Hstop as (Hcl & Hch & Htk).
  - rewrite Hch, Htk. split_and!; done.
  - rewrite Hch, Htk, Hcl, Hch0, Htk0. split_and!; done.
Qed.

(** X9. From the constructor on, the whole trace of any sequence of calls
    obeys the lock discipline, and every lock a call took has been released
    when the sequence returns. *)
Theorem every_run_is_disciplined freq timeout resolver lg (w : W) ops :
  is_Some lg →
  ∃ st0 st,
    NewDNSResolver freq timeout resolver lg w = Done None st0
    ∧ run ops st0 = Done tt st
    ∧ disciplined (trace st) = true
    ∧ holds (trace st) = Free
    ∧ lock (res st) = unlocked.
Proof.
  intros Hlg.
  destruct (NewDNSResolver_fresh freq timeout resolver lg w Hlg)
    as (st0 & Hnew & Hinv0 & Htr0 & _).
  destruct (run_summary ops st0 Hinv0)
    as ([] & st & evs & Hrun & Hinv & Htr & Hdisc & Hfree & _).
  exists st0, st. rewrite Htr, Htr0, app_nil_r.
  split_and!; try done. by destruct Hinv as ([Hlock _] & _).
Qed.

(** X11. No sequence of calls changes what the constructor configured: the
    resolution capability, the lookup timeout, the logger and the period of
    the ticker stay what they were. *)
Theorem configuration_is_fixed freq timeout resolver lg (w : W) ops :
  is_Some lg →
  ∃ st0 st,
    NewDNSResolver freq timeout resolver lg w = Done None st0
    ∧ run ops st0 = Done tt st
    ∧ lookupIPFn (res st) = new_lookupIPFn resolver
    ∧ lookupTimeout (res st) = lookupTimeout (res st0)
    ∧ logger (res st) = lg
    ∧ period (ticker st) = period (ticker st0).
Proof.
  intros Hlg.
  destruct (NewDNSResolver_fresh freq timeout resolver lg w Hlg)
    as (st0 & Hnew & Hinv0 & _ & _ & _ & _ & Hlg0 & Hfn0).
  destruct (run_summary ops st0 Hinv0)
    as ([] & st & evs & Hrun & _ & _ & _ & _ & (Hfn & Hlt & Hlogger & Hper) & _).
  exists st0, st. split_and!; congruence.
Qed.

(** ** Single calls *)

(** X3. Only successes are cached.  After a [Fetch] that missed and whose
    resolution succeeded, the next [Fetch] of the hostname is served from
    the cache without a resolution; after one whose resolution failed, the
    hostname has no entry and the next [Fetch] resolves it again. *)
Theorem Fetch_caches_successes_only ctx ctx' host st (r : lookup_result) w1 :
  lock (res st) = unlocked →
  cache (res st) !! host = None →
  lookupIPFn (res st) ctx host (world st) = (r, w1) →
  ∃ st1,
    Fetch ctx host st
    = Done (match r.2 with Some _ => [] | None => r.1 end, r.2) st1
    ∧ match r.2 with
      | None =>
          ∃ st2, Fetch ctx' host st1 = Done (r.1, None) st2
               ∧ resolutions (trace st2) = resolutions (trace st1)
               ∧ world st2 = w1
      | Some _ =>
          cache (res st1) !! host = None
          ∧ ∀ r2 w2, lookupIPFn (res st) ctx' host w1 = (r2, w2) →
              ∃ st2, Fetch ctx' host st1
                     = Done (match r2.2 with Some _ => [] | None => r2.1 end, r2.2)
                            st2
                   ∧ resolutions (trace st2)
                     = (ctx', host, r2) :: (ctx, host, r)
                         :: resolutions (trace st)
      end.
Proof.
  intros Hlock Hmiss Hfn. rewrite Fetch_miss by done.
  destruct r as [ips [e|]]; cbn [fst snd].
  - eexists. split; [by apply LookupIP_failure|].
    split; [done|]. intros r2 w2 Hfn2.
    rewrite Fetch_miss by done.
    destruct r2 as [ips2 [e2|]]; cbn [fst snd].
    + eexists. split; [by apply LookupIP_failure|]. done.
    + eexists. split; [by apply LookupIP_success|]. done.
  - eexists. split; [by apply LookupIP_success|].
    eexists. split; [apply Fetch_hit; cbn; [done|apply lookup_insert_eq]|done].
Qed.

(** X4. [Refresh] of an empty cache calls nothing and logs nothing: it
    takes the read lock, finds no key and returns, leaving the resolver as
    it was.  It does so with a nil logger too. *)
Theorem Refresh_of_empty_cache st :
  lock (res st) = unlocked →
  cache (res st) = ∅ →
  ∃ st', Refresh st = Done tt st'
       ∧ res st' = res st
       ∧ log_out st' = log_out st
       ∧ trace st' = EvRUnlock :: EvMapRange :: EvRLock :: trace st.
Proof.
  intros Hlock Hempty. rewrite Refresh_unfold by done.
  pose proof (map_range_perm (cache (res st)) (world st)) as Hperm.
  rewrite Hempty, map_to_list_empty in Hperm. cbn in Hperm.
  apply Permutation_nil_r in Hperm. rewrite Hempty, Hperm.
  eexists. split; [reflexivity|]. done.
Qed.

(** X5. [Refresh] needs its logger as soon as a lookup fails: with a nil
    logger, a sweep whose first hostname fails to resolve panics on the
    dereference instead of returning. *)
Theorem Refresh_with_nil_logger_panics st a rest w1 (ips : list IP) e w2 :
  lock (res st) = unlocked →
  logger (res st) = None →
  map_range (cache (res st)) (world st) = (a :: rest, w1) →
  lookupIPFn (res st) (WithTimeout Background (lookupTimeout (res st))) a w1
  = ((ips, Some e), w2) →
  Refresh st = Panic "invalid memory address or nil pointer dereference".
Proof.
  intros Hlock Hlg Hrange Hfn. rewrite Refresh_unfold by done.
  rewrite Hrange. cbn [fst snd Refresh_sweep].
  unfold bind at 1. unfold get. cbv zeta.
  unfold bind at 1. cbn [res world].
  rewrite (LookupIP_failure _ _ _ ips e w2) by exact Hfn.
  unfold bind at 1. unfold logger_Error, bind, get. cbn. by rewrite Hlg.
Qed.

Lemma LookupIP_agree ctx host st st1 :
  lock (res st) = unlocked → lock (res st1) = unlocked →
  world st1 = world st → cache (res st1) = cache (res st) →
  lookupIPFn (res st1) = lookupIPFn (res st) →
  ∃ r s s1, LookupIP ctx host st = Done r s
          ∧ LookupIP ctx host st1 = Done r s1
          ∧ cache (res s1) = cache (res s)
          ∧ world s1 = world s.
Proof.
  intros Hlock Hlock1 Hw Hc Hfn.
  destruct (lookupIPFn (res st) ctx host (world st)) as [[ips [e|]] w'] eqn:Hcall.
  - do 3 eexists. split; [by apply LookupIP_failure|].
    split; [apply LookupIP_failure; by rewrite Hfn, Hw|]. done.
  - do 3 eexists. split; [by apply LookupIP_success|].
    split; [apply LookupIP_success; [done|by rewrite Hfn, Hw]|].
    cbn. by rewrite Hc.
Qed.

(** X6. [Stop] stops the refreshing and nothing else: on the stopped
    resolver [Fetch] and [LookupIP] return what they would have returned
    without the [Stop], and leave the same cache and the same world. *)
Theorem Stop_keeps_the_cache_in_service ctx host st :
  quiescent st →
  ∃ st1, Stop st = Done tt st1
       ∧ (∃ r s s1, Fetch ctx host st = Done r s
                  ∧ Fetch ctx host st1 = Done r s1
                  ∧ cache (res s1) = cache (res s)
                  ∧ world s1 = world s)
       ∧ (∃ r s s1, LookupIP ctx host st = Done r s
                  ∧ LookupIP ctx host st1 = Done r s1
                  ∧ cache (res s1) = cache (res s)
                  ∧ world s1 = world s).
Proof.
  intros [Hlock Hopen].
  assert (∃ st1, Stop st = Done tt st1 ∧ lock (res st1) = unlocked
                 ∧ world st1 = world st ∧ cache (res st1) = cache (res st)
                 ∧ lookupIPFn (res st1) = lookupIPFn (res st))
    as (st1 & Hstop & Hlock1 & Hw & Hc & Hfn).
  { destruct (closer (res st)) as [f|] eqn:Hcl.
    - eexists. split; [apply (Stop_running st f Hlock Hcl); by apply Hopen|].
      cbn. by rewrite Hlock.
    - eexists. split; [by apply Stop_stopped|]. cbn. by rewrite Hlock. }
  exists st1. split; [done|]. split; [|by apply LookupIP_agree].
  destruct (cache (res st) !! host) as [ips|] eqn:Hhit.
  - do 3 eexists. split; [by apply Fetch_hit|].
    split; [apply Fetch_hit; [done|by rewrite Hc]|]. done.
  - rewrite (Fetch_miss ctx host st), (Fetch_miss ctx host st1);
      [|done|by rewrite Hc|done|done].
    by apply LookupIP_agree.
Qed.

(** X7. A hit needs the read lock only: [Fetch] of a cached hostname
    returns its list while any number of other goroutines hold the read
    lock, and gives the mutex back as it found it. *)
Theorem Fetch_hit_among_readers ctx host st (ips : list IP) :
  writer (lock (res st)) = false →
  cache (res st) !! host = Some ips →
  Fetch ctx host st
  = Done (ips, None) (set_trace (read_events host ++ trace st) st).
Proof.
  intros Hw Hhit. unfold_prims.
  destruct st as [w [fn lt lg [wr rd] c cl] tk ch lo tr].
  cbn in *. subst wr. cbn. rewrite Hhit. reflexivity.
Qed.

(** * Calls that overlap *)

(** ** Real traces *)

Lemma resolutions_cons e (tr : list event) x :
  x ∈ resolutions tr → x ∈ resolutions (e :: tr).
Proof.
  intros Hin. destruct e; cbn; try done. apply elem_of_cons. by right.
Qed.

Lemma resolutions_suffix (tr tr' : list event) x :
  tr `suffix_of` tr' → x ∈ resolutions tr → x ∈ resolutions tr'.
Proof.
  intros [evs ->] Hin. rewrite resolutions_app. apply elem_of_app. by right.
Qed.

Lemma replay_last_write fn (w0 w : W) tr c :
  replay fn w0 tr = Some (w, c) → ∀ h, c !! h = last_write h tr.
Proof.
  revert w c. induction tr as [|e tr IH]; intros w c Hrep h.
  - cbn in Hrep. by injection Hrep as <- <-.
  - cbn in Hrep. destruct (replay fn w0 tr) as [[w1 c1]|]; [|done].
    specialize (IH w1 c1 eq_refl h).
    destruct e; cbn; try (by injection Hrep as <- <-).
    + destruct (decide _); [|done]. by injection Hrep as <- <-.
    + injection Hrep as <- <-. destruct (String.eqb_spec addr h) as [->|Hne].
      * apply lookup_insert_eq.
      * by rewrite lookup_insert_ne.
Qed.

Lemma writes_resolved_last_write tr h ips :
  writes_resolved tr → last_write h tr = Some ips →
  ∃ ctx, (ctx, h, (ips, None)) ∈ resolutions tr.
Proof.
  induction tr as [|e tr IH]; intros Hwr Hlast; [done|].
  destruct e; cbn in *;
    try (destruct (IH Hwr Hlast) as [c0 Hin]; exists c0;
         first [exact Hin | apply elem_of_cons; by right]).
  destruct Hwr as [[c0 Hin] Hwr].
  destruct (String.eqb_spec addr h) as [->|Hne].
  - injection Hlast as ->. by exists c0.
  - by apply IH.
Qed.

(** ** A call run alone is the method *)

Lemma run_thread_LookupIP ctx addr k st :
  run_thread (T_LookupIP ctx addr k) st
  = bind (LookupIP ctx addr) (λ r, run_thread (k r)) st.
Proof.
  unfold T_LookupIP, LookupIP, locked_store. cbn [run_thread]. unfold_prims.
  destruct st as [w [fn lt lg [wr rd] c cl] tk ch lo tr]. cbn.
  destruct (fn ctx addr w) as [[ips [e|]] w']; cbn; [done|].
  destruct wr, rd; reflexivity.
Qed.

Lemma run_thread_Fetch ctx addr k st :
  run_thread (T_Fetch ctx addr k) st
  = bind (Fetch ctx addr) (λ r, run_thread (k r)) st.
Proof.
  unfold T_Fetch, Fetch, locked_read. cbn [run_thread].
  unfold bind at 1 3.
  unfold mu_RLock, cache_get, mu_RUnlock, emit, modify, get, block, panic, bind, ret.
  destruct st as [w [fn lt lg [wr rd] c cl] tk ch lo tr]. cbn.
  destruct wr; [reflexivity|]. cbn.
  destruct (c !! addr) as [ips|]; [reflexivity|].
  apply run_thread_LookupIP.
Qed.

Lemma run_thread_sweep addrs k st :
  run_thread (T_sweep addrs k) st
  = bind (Refresh_sweep addrs) (λ _, run_thread k) st.
Proof.
  revert st. induction addrs as [|addr rest IH]; intros st; [reflexivity|].
  cbn [T_sweep run_thread Refresh_sweep].
  unfold bind at 1. unfold read_lookupTimeout, bind at 1, get, ret.
  rewrite run_thread_LookupIP. unfold bind, get. cbv beta zeta.
  destruct (LookupIP _ addr st) as [[ips [e|]] st1| |]; try reflexivity.
  - cbn [fst snd run_thread]. unfold bind.
    destruct (logger_Error e addr st1) as [[] st2| |]; try reflexivity.
    exact (IH st2).
  - cbn [fst snd]. exact (IH st1).
Qed.

Lemma run_thread_Refresh k st :
  run_thread (T_Refresh k) st = bind Refresh (λ _, run_thread k) st.
Proof.
  unfold T_Refresh, Refresh, locked_keys. cbn [run_thread].
  unfold bind at 1 3.
  unfold mu_RLock, cache_keys, mu_RUnlock, emit, modify, get, block, panic, bind, ret.
  destruct st as [w [fn lt lg [wr rd] c cl] tk ch lo tr]. cbn.
  destruct wr; [reflexivity|]. cbn.
  destruct (map_range c w) as [addrs w']. cbn.
  apply run_thread_sweep.
Qed.

(** The steps of a call, taken with nothing in between, are the method the
    call is a call of. *)
Lemma run_thread_exec o st : run_thread (thread_of_op o) st = exec o st.
Proof.
  destruct o as [ctx addr|ctx addr| | |]; cbn [thread_of_op exec].
  - apply run_thread_LookupIP.
  - apply run_thread_Fetch.
  - rewrite run_thread_Refresh. unfold bind. cbn.
    by destruct (Refresh st) as [[] ?| |].
  - cbn. unfold bind, ret. by destruct (Stop st) as [[] ?| |].
  - rewrite run_thread_Refresh. unfold goroutine_turn, onRefreshed, bind, ret. cbn.
    by destruct (Refresh st) as [[] ?| |].
Qed.

(** ** The steps, one at a time *)

Section Steps.
Variable fn : Context → string → W → lookup_result * W.
Variable w0 : W.

Lemma real_resolve ctx addr st :
  real fn w0 st →
  ∃ st', call_lookupIPFn ctx addr st
         = Done (fn ctx addr (world st)).1 st'
       ∧ real fn w0 st'
       ∧ trace st' = EvResolve ctx addr (fn ctx addr (world st)).1 :: trace st
       ∧ world st' = (fn ctx addr (world st)).2
       ∧ cache (res st') = cache (res st).
Proof.
  intros (Hq & Hlg & Hfn & Hrep & Hwr). unfold_prims. rewrite Hfn.
  destruct (fn ctx addr (world st)) as [r w'] eqn:Hcall.
  eexists. split; [reflexivity|]. split; [|done].
  split_and!; try done. cbn. rewrite Hrep, Hcall. cbn.
  by rewrite decide_True.
Qed.

Lemma real_store addr ips st :
  real fn w0 st →
  (∃ ctx, (ctx, addr, (ips, None)) ∈ resolutions (trace st)) →
  ∃ st', locked_store addr ips st = Done tt st'
       ∧ real fn w0 st'
       ∧ trace st' = EvUnlock :: EvMapWrite addr ips :: EvLock :: trace st
       ∧ world st' = world st
       ∧ cache (res st') = <[addr := ips]> (cache (res st)).
Proof.
  intros ([Hlock Hopen] & Hlg & Hfn & Hrep & Hwr) Hres.
  unfold locked_store. unfold_prims. open_unlocked st Hlock.
  eexists. split; [reflexivity|]. split; [|done].
  split_and!; try done. cbn. by rewrite Hrep.
Qed.

Lemma real_read addr st :
  real fn w0 st →
  ∃ st', locked_read addr st = Done (cache (res st) !! addr) st'
       ∧ real fn w0 st'
       ∧ trace st' = read_events addr ++ trace st
       ∧ world st' = world st
       ∧ cache (res st') = cache (res st).
Proof.
  intros ([Hlock Hopen] & Hlg & Hfn & Hrep & Hwr).
  unfold locked_read. unfold_prims. open_unlocked st Hlock.
  eexists. split; [reflexivity|]. split; [|done].
  split_and!; try done. cbn. by rewrite Hrep.
Qed.

Lemma real_keys st :
  real fn w0 st →
  ∃ st', locked_keys st
         = Done (map_range (cache (res st)) (world st)).1 st'
       ∧ real fn w0 st'
       ∧ trace st' = EvRUnlock :: EvMapRange :: EvRLock :: trace st
       ∧ world st' = (map_range (cache (res st)) (world st)).2
       ∧ cache (res st') = cache (res st).
Proof.
  intros ([Hlock Hopen] & Hlg & Hfn & Hrep & Hwr).
  unfold locked_keys. unfold_prims. open_unlocked st Hlock.
  destruct (map_range c w) as [addrs w'] eqn:Hrange.
  eexists. split; [reflexivity|]. split; [|done].
  split_and!; try done. cbn. rewrite Hrep. cbn. by rewrite Hrange.
Qed.

Lemma real_log e addr st :
  real fn w0 st →
  ∃ st', logger_Error e addr st = Done tt st'
       ∧ real fn w0 st'
       ∧ trace st' = EvLogError e addr :: trace st
       ∧ world st' = world st
       ∧ cache (res st') = cache (res st).
Proof.
  intros (Hq & Hlg & Hfn & Hrep & Hwr).
  rewrite logger_Error_run by done.
  eexists. split; [reflexivity|]. split; [|done].
  split_and!; try done. cbn. by rewrite Hrep.
Qed.

Lemma real_Stop st :
  real fn w0 st →
  ∃ st' evs, Stop st = Done tt st'
       ∧ real fn w0 st'
       ∧ trace st' = evs ++ trace st
       ∧ world st' = world st
       ∧ cache (res st') = cache (res st).
Proof.
  intros ([Hlock Hopen] & Hlg & Hfn & Hrep & Hwr).
  destruct (closer (res st)) as [f|] eqn:Hcl.
  - eexists. exists [EvUnlock; EvCloser; EvLock].
    split; [apply (Stop_running st f Hlock Hcl); by apply Hopen|].
    split; [|done]. split_and!; try done.
    + split; [done|]. cbn. by intros [? ?].
    + cbn. by rewrite Hrep.
  - eexists. exists [EvUnlock; EvLock].
    split; [by apply Stop_stopped|].
    split; [|done]. split_and!; try done.
    + split; [done|]. cbn. rewrite Hcl. by intros [? ?].
    + cbn. by rewrite Hrep.
Qed.

(** ** The calls, step by step *)

Lemma good_mono t (tr tr' : list event) :
  good fn w0 t tr → tr `suffix_of` tr' → good fn w0 t tr'.
Proof.
  destruct t as [|X c k]; [done|]. cbn. intros Hgood Hsuf st Hreal Hsuf'.
  apply Hgood; [done|]. by etrans.
Qed.

Lemma good_LookupIP ctx addr k tr :
  (∀ r tr', tr `suffix_of` tr' → good fn w0 (k r) tr') →
  good fn w0 (T_LookupIP ctx addr k) tr.
Proof.
  intros Hk st Hreal Hsuf.
  destruct (real_resolve ctx addr st Hreal) as (st1 & Hrun & Hreal1 & Htr1 & _ & Hc1).
  assert (tr `suffix_of` trace st1) as Hsuf1.
  { rewrite Htr1. by apply suffix_cons_r. }
  exists (fn ctx addr (world st)).1, st1.
  split; [done|]. split; [done|].
  split; [rewrite Htr1; by apply suffix_cons_r|].
  split; [by rewrite Hc1|].
  destruct (fn ctx addr (world st)).1 as [ips [e|]] eqn:Hr; cbn [fst snd].
  - by apply Hk.
  - intros st2 Hreal2 Hsuf2.
    assert (∃ c, (c, addr, (ips, None)) ∈ resolutions (trace st2)) as Hres.
    { exists ctx. eapply resolutions_suffix; [exact Hsuf2|].
      rewrite Htr1. cbn. apply elem_of_cons. by left. }
    destruct (real_store addr ips st2 Hreal2 Hres)
      as (st3 & Hrun3 & Hreal3 & Htr3 & _ & Hc3).
    assert (trace st2 `suffix_of` trace st3) as Hsuf3.
    { rewrite Htr3. by do 3 apply suffix_cons_r. }
    exists tt, st3. split_and!; try done.
    + rewrite Hc3, dom_insert_L. apply union_subseteq_r.
    + apply Hk. by repeat (etrans; [eassumption|]).
Qed.

Lemma good_Fetch ctx addr k tr :
  (∀ r tr', tr `suffix_of` tr' → good fn w0 (k r) tr') →
  good fn w0 (T_Fetch ctx addr k) tr.
Proof.
  intros Hk st Hreal Hsuf.
  destruct (real_read addr st Hreal) as (st1 & Hrun & Hreal1 & Htr1 & _ & Hc1).
  assert (tr `suffix_of` trace st1) as Hsuf1.
  { rewrite Htr1. etrans; [exact Hsuf|]. by apply suffix_app_r. }
  exists (cache (res st) !! addr), st1.
  split; [done|]. split; [done|].
  split; [rewrite Htr1; by apply suffix_app_r|].
  split; [by rewrite Hc1|].
  destruct (cache (res st) !! addr) as [ips|].
  - by apply Hk.
  - apply good_LookupIP. intros r tr' Hsuf'. apply Hk. by etrans.
Qed.

Lemma good_sweep addrs k tr :
  (∀ tr', tr `suffix_of` tr' → good fn w0 k tr') →
  good fn w0 (T_sweep addrs k) tr.
Proof.
  revert tr. induction addrs as [|addr rest IH]; intros tr Hk.
  - by apply Hk.
  - intros st Hreal Hsuf. exists (lookupTimeout (res st)), st.
    split; [reflexivity|]. split_and!; try done.
    apply good_LookupIP. intros r tr' Hsuf'.
    assert (∀ tr'', tr' `suffix_of` tr'' → good fn w0 (T_sweep rest k) tr'')
      as Hrest.
    { intros tr'' Hsuf''. apply IH. intros tr3 Hsuf3. apply Hk.
      by repeat (etrans; [eassumption|]). }
    destruct (r.2) as [e|]; [|by apply Hrest].
    intros st2 Hreal2 Hsuf2.
    destruct (real_log e addr st2 Hreal2) as (st3 & Hrun3 & Hreal3 & Htr3 & _ & Hc3).
    exists tt, st3. split_and!; try done.
    + rewrite Htr3. by apply suffix_cons_r.
    + by rewrite Hc3.
    + apply Hrest. rewrite Htr3. by apply suffix_cons_r.
Qed.

Lemma good_Refresh k tr :
  (∀ tr', tr `suffix_of` tr' → good fn w0 k tr') →
  good fn w0 (T_Refresh k) tr.
Proof.
  intros Hk st Hreal Hsuf.
  destruct (real_keys st Hreal) as (st1 & Hrun & Hreal1 & Htr1 & _ & Hc1).
  assert (trace st `suffix_of` trace st1) as Hsuf1.
  { rewrite Htr1. by do 3 apply suffix_cons_r. }
  exists (map_range (cache (res st)) (world st)).1, st1.
  split_and!; try done; [by rewrite Hc1|].
  apply good_sweep. intros tr' Hsuf'. apply Hk.
  by repeat (etrans; [eassumption|]).
Qed.

Lemma good_Stop k tr :
  (∀ tr', tr `suffix_of` tr' → good fn w0 k tr') →
  good fn w0 (T_Stop k) tr.
Proof.
  intros Hk st Hreal Hsuf.
  destruct (real_Stop st Hreal) as (st1 & evs & Hrun & Hreal1 & Htr1 & _ & Hc1).
  assert (trace st `suffix_of` trace st1) as Hsuf1.
  { rewrite Htr1. by apply suffix_app_r. }
  exists tt, st1. split_and!; try done; [by rewrite Hc1|].
  apply Hk. by etrans.
Qed.

Lemma good_thread_of_op o tr : good fn w0 (thread_of_op o) tr.
Proof.
  destruct o as [ctx addr|ctx addr| | |]; cbn [thread_of_op].
  - by apply good_LookupIP.
  - by apply good_Fetch.
  - by apply good_Refresh.
  - by apply good_Stop.
  - apply good_Refresh. intros tr' _ st Hreal Hsuf.
    exists tt, st. by split_and!.
Qed.

(** ** Any interleaving *)

Lemma step_real i p st :
  real fn w0 st →
  Forall (λ t, good fn w0 t (trace st)) p →
  ∃ p' st', step i p st = Done p' st'
          ∧ real fn w0 st'
          ∧ Forall (λ t, good fn w0 t (trace st')) p'
          ∧ trace st `suffix_of` trace st'
          ∧ dom (cache (res st)) ⊆ dom (cache (res st')).
Proof.
  intros Hreal Hpool. unfold step.
  destruct (p !! i) as [[|X c k]|] eqn:Hi; try (by exists p, st).
  pose proof (proj1 (Forall_lookup _ _) Hpool i _ Hi) as Hgood.
  destruct (Hgood st Hreal) as (x & st' & Hrun & Hreal' & Hsuf & Hdom & Hk);
    [done|].
  exists (<[i := k x]> p), st'. unfold bind, ret. rewrite Hrun.
  split_and!; try done.
  apply Forall_insert; [|done].
  eapply Forall_impl; [exact Hpool|]. intros t Ht. cbn in Ht.
  exact (good_mono t _ _ Ht Hsuf).
Qed.

Lemma schedule_real picks p st :
  real fn w0 st →
  Forall (λ t, good fn w0 t (trace st)) p →
  ∃ p' st', schedule picks p st = Done p' st'
          ∧ real fn w0 st'
          ∧ Forall (λ t, good fn w0 t (trace st')) p'
          ∧ trace st `suffix_of` trace st'
          ∧ dom (cache (res st)) ⊆ dom (cache (res st')).
Proof.
  revert p st. induction picks as [|i rest IH]; intros p st Hreal Hpool.
  - by exists p, st.
  - destruct (step_real i p st Hreal Hpool)
      as (p1 & st1 & Hrun1 & Hreal1 & Hpool1 & Hsuf1 & Hdom1).
    destruct (IH p1 st1 Hreal1 Hpool1)
      as (p2 & st2 & Hrun2 & Hreal2 & Hpool2 & Hsuf2 & Hdom2).
    exists p2, st2. cbn [schedule]. unfold bind. rewrite Hrun1.
    split_and!; try done; by etrans.
Qed.

(** ** One call at a time *)

Lemma run_thread_real t st tr :
  good fn w0 t tr → real fn w0 st → tr `suffix_of` trace st →
  ∃ st', run_thread t st = Done tt st'
       ∧ real fn w0 st'
       ∧ dom (cache (res st)) ⊆ dom (cache (res st')).
Proof.
  revert st tr. induction t as [|X c k IH]; intros st tr Hgood Hreal Hsuf.
  - by exists st.
  - destruct (Hgood st Hreal Hsuf) as (x & st1 & Hrun1 & Hreal1 & _ & Hdom1 & Hk).
    destruct (IH x st1 (trace st1) Hk Hreal1) as (st2 & Hrun2 & Hreal2 & Hdom2);
      [done|].
    exists st2. cbn [run_thread]. unfold bind. rewrite Hrun1.
    split_and!; try done. by etrans.
Qed.

Lemma run_real ops st :
  real fn w0 st →
  ∃ st', run ops st = Done tt st'
       ∧ real fn w0 st'
       ∧ dom (cache (res st)) ⊆ dom (cache (res st')).
Proof.
  revert st. induction ops as [|o ops IH]; intros st Hreal.
  - by exists st.
  - destruct (run_thread_real (thread_of_op o) st (trace st)
                (good_thread_of_op o _) Hreal) as (st1 & Hrun1 & Hreal1 & Hdom1);
      [done|].
    rewrite run_thread_exec in Hrun1.
    destruct (IH st1 Hreal1) as (st2 & Hrun2 & Hreal2 & Hdom2).
    exists st2. cbn [run]. unfold bind. rewrite Hrun1.
    split_and!; try done. by etrans.
Qed.

End Steps.

(** ** What the capability answered *)

Lemma sweep_calls_addrs fn ctx addrs (w : W) :
  (sweep_calls fn ctx addrs w).1.*1 = addrs.
Proof.
  revert w. induction addrs as [|a rest IH]; intros w; [done|].
  cbn. destruct (fn ctx a w) as [r w1]. specialize (IH w1).
  destruct (sweep_calls fn ctx rest w1) as [calls w2]. cbn in *. by rewrite IH.
Qed.

Lemma sweep_calls_answers fn ctx addrs (w : W) h r :
  (h, r) ∈ (sweep_calls fn ctx addrs w).1 → ∃ w1, (fn ctx h w1).1 = r.
Proof.
  revert w. induction addrs as [|a rest IH]; intros w Hin.
  - by apply elem_of_nil in Hin.
  - cbn in Hin. destruct (fn ctx a w) as [r1 w1] eqn:Hcall. specialize (IH w1).
    destruct (sweep_calls fn ctx rest w1) as [calls w2]. cbn in *.
    apply elem_of_cons in Hin as [Heq|Hin]; [|by apply IH].
    injection Heq as -> ->. exists w. by rewrite Hcall.
Qed.

Lemma replay_answers fn (w0 w : W) tr c ctx h r :
  replay fn w0 tr = Some (w, c) → (ctx, h, r) ∈ resolutions tr →
  ∃ w1, (fn ctx h w1).1 = r.
Proof.
  revert w c. induction tr as [|e tr IH]; intros w c Hrep Hin.
  - by apply elem_of_nil in Hin.
  - cbn in Hrep. destruct (replay fn w0 tr) as [[w1 c1]|] eqn:Hrep1; [|done].
    destruct e; cbn in Hin; try (by eapply IH).
    destruct (decide _) as [Heq|]; [|done].
    apply elem_of_cons in Hin as [Hhd|Hin]; [|by eapply IH].
    injection Hhd as -> -> ->. by exists w1.
Qed.

Lemma last_write_app h (evs tr : list event) :
  last_write h (evs ++ tr)
  = match last_write h evs with
    | Some ips => Some ips
    | None => last_write h tr
    end.
Proof.
  induction evs as [|e evs IH]; [done|].
  destruct e; cbn; try done. by destruct (String.eqb addr h).
Qed.

(** The sweep asks the capability for each address of the snapshot in
    turn, and its whole effect is that of the answers it got. *)
Lemma Refresh_sweep_asks addrs st :
  lock (res st) = unlocked →
  is_Some (logger (res st)) →
  Refresh_sweep addrs st =
    Done tt
      (mkState
         (sweep_calls (lookupIPFn (res st))
            (WithTimeout Background (lookupTimeout (res st))) addrs (world st)).2
         (set_cache
            (foldl store_call (cache (res st))
               (sweep_calls (lookupIPFn (res st))
                  (WithTimeout Background (lookupTimeout (res st))) addrs
                  (world st)).1)
            (res st))
         (ticker st) (ch_closed st)
         (sweep_log
            (sweep_calls (lookupIPFn (res st))
               (WithTimeout Background (lookupTimeout (res st))) addrs
               (world st)).1 ++ log_out st)
         (sweep_events (WithTimeout Background (lookupTimeout (res st)))
            (sweep_calls (lookupIPFn (res st))
               (WithTimeout Background (lookupTimeout (res st))) addrs
               (world st)).1 ++ trace st)).
Proof.
  revert st. induction addrs as [|a rest IH]; intros st Hlock Hlg.
  - destruct st as [w [fn lt lg lk c cl] tk ch lo tr]. reflexivity.
  - cbn [Refresh_sweep sweep_calls]. unfold bind at 1. unfold get. cbv zeta.
    set (ctx := WithTimeout Background (lookupTimeout (res st))).
    destruct (lookupIPFn (res st) ctx a (world st)) as [[ips [e|]] w1] eqn:Hfn.
    + unfold bind at 1. rewrite (LookupIP_failure _ _ _ _ _ _ Hfn).
      unfold bind at 1. rewrite logger_Error_run by done.
      match goal with |- context [Refresh_sweep rest ?s] => set (st2 := s) end.
      rewrite (IH st2 Hlock Hlg). subst st2. cbn [res world lookupIPFn lookupTimeout
        cache ticker ch_closed log_out trace set_cache]. fold ctx.
      destruct (sweep_calls (lookupIPFn (res st)) ctx rest w1) as [calls w2].
      cbn. by rewrite <- !app_assoc.
    + unfold bind at 1. rewrite (LookupIP_success _ _ _ _ _ Hlock Hfn).
      unfold bind at 1. unfold ret at 1.
      match goal with |- context [Refresh_sweep rest ?s] => set (st2 := s) end.
      rewrite (IH st2 Hlock Hlg). subst st2. cbn [res world lookupIPFn lookupTimeout
        cache ticker ch_closed log_out trace set_cache]. fold ctx.
      destruct (sweep_calls (lookupIPFn (res st)) ctx rest w1) as [calls w2].
      cbn. by rewrite <- !app_assoc.
Qed.

(** C6. [Refresh] on a resolver with cached hostnames returns, whatever the
    capability answers.  It asks the resolver's own capability once for
    every cached hostname, in the order the snapshot has them, each call
    bound by the configured lookup timeout and made in the world the
    previous call left.  A hostname whose call succeeded now maps to the
    list that call returned; a hostname whose call failed keeps the entry
    it had and has its failure in the log; nothing but the failures is
    logged, and no hostname is added or lost.  In particular, a hostname
    for which the capability has one answer whatever the world holds that
    answer if it is a success and its old entry if it is a failure. *)
Theorem Refresh_sweeps_every_hostname st :
  lock (res st) = unlocked →
  is_Some (logger (res st)) →
  ∃ st',
    Refresh st = Done tt st'
    ∧ let ctx := WithTimeout Background (lookupTimeout (res st)) in
      let addrs := (map_range (cache (res st)) (world st)).1 in
      let asked :=
        sweep_calls (lookupIPFn (res st)) ctx addrs
                    (map_range (cache (res st)) (world st)).2 in
      addrs ≡ₚ (map_to_list (cache (res st))).*1
      ∧ asked.1.*1 = addrs
      ∧ world st' = asked.2
      ∧ resolutions (trace st')
        = rev (map (λ call, (ctx, call.1, call.2)) asked.1)
            ++ resolutions (trace st)
      ∧ (∀ h ips, (h, (ips, None)) ∈ asked.1 →
           cache (res st') !! h = Some ips)
      ∧ (∀ h ips e, (h, (ips, Some e)) ∈ asked.1 →
           cache (res st') !! h = cache (res st) !! h
           ∧ mkLogEntry e h refresh_msg ∈ log_out st')
      ∧ (∀ h r, is_Some (cache (res st) !! h) →
           (∀ w, (lookupIPFn (res st) ctx h w).1 = r) →
           cache (res st') !! h
           = match r.2 with
             | None => Some r.1
             | Some _ => cache (res st) !! h
             end)
      ∧ dom (cache (res st')) = dom (cache (res st))
      ∧ log_out st' = sweep_log asked.1 ++ log_out st.
Proof.
  intros Hlock Hlg. rewrite Refresh_unfold by done.
  pose proof (map_range_perm (cache (res st)) (world st)) as Hperm.
  destruct (map_range (cache (res st)) (world st)) as [addrs w1]. cbn [fst snd] in *.
  match goal with |- context [Refresh_sweep addrs ?s] => set (st1 := s) end.
  pose proof (Refresh_sweep_asks addrs st1 Hlock Hlg) as Hrun.
  cbn [st1 res world lookupIPFn lookupTimeout cache ticker ch_closed log_out trace]
    in Hrun.
  set (ctx := WithTimeout Background (lookupTimeout (res st))) in *.
  pose proof (sweep_calls_addrs (lookupIPFn (res st)) ctx addrs w1) as Hcalls.
  pose proof (sweep_calls_answers (lookupIPFn (res st)) ctx addrs w1) as Hanswers.
  destruct (sweep_calls (lookupIPFn (res st)) ctx addrs w1) as [calls w2].
  cbn [fst snd] in *.
  assert (NoDup calls.*1) as Hnd.
  { rewrite Hcalls, Hperm. apply NoDup_fst_map_to_list. }
  assert (∀ h, is_Some (cache (res st) !! h) → h ∈ calls.*1) as Hasked.
  { intros h [v Hv]. rewrite Hcalls, Hperm.
    apply list_elem_of_fmap. exists (h, v). split; [done|].
    by apply elem_of_map_to_list. }
  eexists. split; [exact Hrun|]. cbn.
  split_and!; try done.
  - rewrite !resolutions_app, sweep_events_resolutions. done.
  - intros h ips Hin. by apply store_calls_success.
  - intros h ips e Hin. split.
    + by eapply store_calls_failure.
    + apply elem_of_app. left. by eapply sweep_log_failure.
  - intros h r Hcached Hanswer.
    apply Hasked, list_elem_of_fmap in Hcached as ([h' r'] & Heq & Hin).
    cbn in Heq. subst h'.
    destruct (Hanswers h r' Hin) as [w Hw]. rewrite Hanswer in Hw. subst r'.
    destruct r as [ips [e|]]; cbn.
    + by eapply store_calls_failure.
    + by apply store_calls_success.
  - apply store_calls_dom. intros h Hin.
    rewrite Hcalls, Hperm in Hin.
    apply list_elem_of_fmap in Hin as ([k v] & -> & Hin).
    apply elem_of_map_to_list in Hin. apply elem_of_dom. by exists v.
Qed.

Lemma NewDNSResolver_real freq timeout resolver lg (w : W) :
  is_Some lg →
  ∃ st, NewDNSResolver freq timeout resolver lg w = Done None st
      ∧ cache (res st) = ∅
      ∧ trace st = []
      ∧ cache_inv st
      ∧ real (new_lookupIPFn resolver) w st.
Proof.
  intros Hlg. unfold NewDNSResolver, NewTicker; cbv zeta.
  destruct (freq <=? 0)%Z eqn:Ef;
    [change (defaultFreq <=? 0)%Z with false | rewrite Ef];
    (eexists; split; [reflexivity|]); by split_and!.
Qed.



End Facts.

(** * Runs on the stub world *)

(** The scenario of the specification: the first fetch of a.test asks the
    network once and returns 10.0.0.1; the fetch of b.test fails and leaves
    no entry; after that a sweep re-resolves a.test only. *)
Example stub_scenario :
  ∃ st1 st2 st3,
    Fetch Background "a.test" Stub.fresh = Done ([Stub.ip_a], None) st1
    ∧ world st1 = 1%nat
    ∧ Fetch Background "b.test" st1 = Done ([], Some "no such host") st2
    ∧ cache (res st2) !! "b.test" = None
    ∧ Refresh st2 = Done tt st3
    ∧ world st3 = 3%nat
    ∧ map_to_list (cache (res st3)) = [("a.test", [Stub.ip_a])].
Proof. do 3 eexists. split_and!; vm_compute; reflexivity. Qed.

(** A sweep in which one hostname fails: its entry stays, the failure is
    logged, and the other hostname is resolved all the same. *)
Example stub_partial_sweep :
  ∃ st, Refresh Stub.cached_both = Done tt st
      ∧ cache (res st) !! "flaky.test" = Some [Stub.ip_b]
      ∧ cache (res st) !! "a.test" = Some [Stub.ip_a]
      ∧ log_out st = [mkLogEntry "no such host" "flaky.test" refresh_msg]
      ∧ world st = 4%nat.
Proof. eexists. split_and!; vm_compute; reflexivity. Qed.

(** The [closer] field is what makes a second [Stop] harmless: running the
    closure again on its closed channel panics. *)
Example closer_twice_panics :
  bind (call_closer StopTickerCloseCh) (λ _, call_closer StopTickerCloseCh)
       Stub.fresh
  = Panic "close of closed channel".
Proof. reflexivity. Qed.


(** ** The theorems at states of the stub world *)

Lemma LookupIP_success_stores_then_returns_witness :
  lock (res Stub.cached_flaky) = unlocked
  ∧ lookupIPFn (res Stub.cached_flaky) Background "a.test" (world Stub.cached_flaky)
    = (([Stub.ip_a], None), 2%nat)
  ∧ ∃ st', LookupIP Background "a.test" Stub.cached_flaky = Done ([Stub.ip_a], None) st'
         ∧ cache (res st') = <["a.test" := [Stub.ip_a]]> (cache (res Stub.cached_flaky))
         ∧ cache (res st') !! "a.test" = Some [Stub.ip_a]
         ∧ trace st' = EvUnlock :: EvMapWrite "a.test" [Stub.ip_a] :: EvLock
                         :: EvResolve Background "a.test" ([Stub.ip_a], None)
                         :: trace Stub.cached_flaky
         ∧ world st' = 2%nat.
Proof.
  split; [vm_compute; reflexivity|]. split; [vm_compute; reflexivity|].
  apply (LookupIP_success_stores_then_returns
           Background "a.test" Stub.cached_flaky [Stub.ip_a] 2%nat);
    vm_compute; reflexivity.
Defined.

Lemma LookupIP_failure_keeps_cache_witness :
  lookupIPFn (res Stub.cached_flaky) Background "flaky.test" (world Stub.cached_flaky)
    = (([], Some "no such host"), 2%nat)
  ∧ ∃ st', LookupIP Background "flaky.test" Stub.cached_flaky
             = Done ([], Some "no such host") st'
         ∧ res st' = res Stub.cached_flaky
         ∧ cache (res st') = cache (res Stub.cached_flaky)
         ∧ ∀ ctx' L, lock (res Stub.cached_flaky) = unlocked →
                     cache (res Stub.cached_flaky) !! "flaky.test" = Some L →
                     ∃ st'', Fetch ctx' "flaky.test" st' = Done (L, None) st''
                           ∧ cache (res st'') = cache (res Stub.cached_flaky).
Proof.
  split; [vm_compute; reflexivity|].
  apply (LookupIP_failure_keeps_cache
           Background "flaky.test" Stub.cached_flaky [] "no such host" 2%nat).
  vm_compute; reflexivity.
Defined.

Lemma Fetch_miss_is_one_resolution_witness :
  lock (res Stub.cached_a) = unlocked
  ∧ cache (res Stub.cached_a) !! "b.test" = None
  ∧ lookupIPFn (res Stub.cached_a) Background "b.test" (world Stub.cached_a)
    = (([], Some "no such host"), 2%nat)
  ∧ ∃ st', Fetch Background "b.test" Stub.cached_a
             = Done ([], Some "no such host") st'
         ∧ resolutions (trace st')
           = (Background, "b.test", ([], Some "no such host"))
               :: resolutions (trace Stub.cached_a)
         ∧ world st' = 2%nat.
Proof.
  split; [vm_compute; reflexivity|]. split; [vm_compute; reflexivity|].
  split; [vm_compute; reflexivity|].
  apply (Fetch_miss_is_one_resolution
           Background "b.test" Stub.cached_a ([], Some "no such host") 2%nat);
    vm_compute; reflexivity.
Defined.

Lemma Fetch_after_LookupIP_hits_witness :
  lock (res Stub.fresh) = unlocked
  ∧ lookupIPFn (res Stub.fresh) Background "a.test" (world Stub.fresh)
    = (([Stub.ip_a], None), 1%nat)
  ∧ ∃ st1 st2, LookupIP Background "a.test" Stub.fresh = Done ([Stub.ip_a], None) st1
             ∧ Fetch (WithTimeout Background 5) "a.test" st1
               = Done ([Stub.ip_a], None) st2
             ∧ resolutions (trace st2) = resolutions (trace st1)
             ∧ world st2 = world st1
             ∧ cache (res st2) = cache (res st1).
Proof.
  split; [reflexivity|]. split; [reflexivity|].
  apply (Fetch_after_LookupIP_hits
           Background (WithTimeout Background 5) "a.test" Stub.fresh [Stub.ip_a] 1%nat);
    reflexivity.
Defined.

Lemma Stop_idempotent_witness :
  quiescent Stub.cached_a
  ∧ ∃ st1 st2, Stop Stub.cached_a = Done tt st1
             ∧ run (replicate 3 OpStop) st1 = Done tt st2
             ∧ Stop st1 = Done tt (set_trace (EvUnlock :: EvLock :: trace st1) st1)
             ∧ st2 = set_trace (trace st2) st1
             ∧ closer (res st1) = None
             ∧ cache (res st1) = cache (res Stub.cached_a)
             ∧ cache (res st2) = cache (res Stub.cached_a).
Proof.
  assert (quiescent Stub.cached_a) as Hq.
  { split; [vm_compute; reflexivity | intros _; vm_compute; reflexivity]. }
  split; [exact Hq|]. apply (Stop_idempotent Stub.cached_a 3 Hq).
Defined.

Lemma methods_follow_lock_discipline_witness :
  quiescent Stub.cached_both
  ∧ is_Some (logger (res Stub.cached_both))
  ∧ follows_discipline (LookupIP Background "flaky.test") Stub.cached_both
  ∧ follows_discipline (Fetch Background "flaky.test") Stub.cached_both
  ∧ follows_discipline Refresh Stub.cached_both
  ∧ follows_discipline Stop Stub.cached_both.
Proof.
  assert (quiescent Stub.cached_both) as Hq.
  { split; [vm_compute; reflexivity | intros _; vm_compute; reflexivity]. }
  assert (is_Some (logger (res Stub.cached_both))) as Hlg.
  { exists LogrusLogger. vm_compute. reflexivity. }
  split; [exact Hq|]. split; [exact Hlg|].
  exact (methods_follow_lock_discipline
           Background "flaky.test" Stub.cached_both Hq Hlg).
Defined.

Lemma empty_answer_is_cached_and_served_witness :
  lock (res Stub.fresh) = unlocked
  ∧ lookupIPFn (res Stub.fresh) = new_lookupIPFn Stub.resolver
  ∧ LookupIPAddr Stub.resolver Background "empty.test" (world Stub.fresh)
    = (([], None), 1%nat)
  ∧ ∃ st1 st2,
      LookupIP Background "empty.test" Stub.fresh = Done ([], None) st1
      ∧ cache (res st1) !! "empty.test" = Some []
      ∧ Fetch_each [Background; WithTimeout Background 7; Background]
                   "empty.test" st1
        = Done (replicate 3 ([], None)) st2
      ∧ resolutions (trace st2) = resolutions (trace st1)
      ∧ world st2 = 1%nat
      ∧ cache (res st2) !! "empty.test" = Some [].
Proof.
  split; [reflexivity|]. split; [reflexivity|]. split; [reflexivity|].
  apply (empty_answer_is_cached_and_served Stub.resolver Background "empty.test"
           Stub.fresh 1%nat [Background; WithTimeout Background 7; Background]);
    reflexivity.
Defined.

(** ** The further properties at states of the stub world *)

Lemma Fetch_caches_successes_only_witness :
  lock (res Stub.fresh) = unlocked
  ∧ cache (res Stub.fresh) !! "b.test" = None
  ∧ lookupIPFn (res Stub.fresh) Background "b.test" (world Stub.fresh)
    = (([], Some "no such host"), 1%nat)
  ∧ ∃ st1,
      Fetch Background "b.test" Stub.fresh
      = Done ([], Some "no such host") st1
      ∧ cache (res st1) !! "b.test" = None
      ∧ ∀ r2 w2,
          lookupIPFn (res Stub.fresh) (WithTimeout Background 9) "b.test" 1%nat
          = (r2, w2) →
          ∃ st2, Fetch (WithTimeout Background 9) "b.test" st1
                 = Done (match r2.2 with Some _ => [] | None => r2.1 end, r2.2)
                        st2
               ∧ resolutions (trace st2)
                 = (WithTimeout Background 9, "b.test", r2)
                     :: (Background, "b.test", ([], Some "no such host"))
                     :: resolutions (trace Stub.fresh).
Proof.
  split; [reflexivity|]. split; [reflexivity|]. split; [reflexivity|].
  exact (Fetch_caches_successes_only
           Background (WithTimeout Background 9) "b.test" Stub.fresh
           ([], Some "no such host") 1%nat eq_refl eq_refl eq_refl).
Defined.

Lemma Refresh_of_empty_cache_witness :
  lock (res Stub.fresh) = unlocked
  ∧ cache (res Stub.fresh) = ∅
  ∧ ∃ st', Refresh Stub.fresh = Done tt st'
         ∧ res st' = res Stub.fresh
         ∧ log_out st' = log_out Stub.fresh
         ∧ trace st' = EvRUnlock :: EvMapRange :: EvRLock :: trace Stub.fresh.
Proof.
  split; [reflexivity|]. split; [reflexivity|].
  exact (Refresh_of_empty_cache Stub.fresh eq_refl eq_refl).
Defined.

Lemma Refresh_with_nil_logger_panics_witness :
  lock (res Stub.cached_flaky_nil_logger) = unlocked
  ∧ logger (res Stub.cached_flaky_nil_logger) = None
  ∧ map_range (cache (res Stub.cached_flaky_nil_logger))
              (world Stub.cached_flaky_nil_logger)
    = (["flaky.test"], 1%nat)
  ∧ lookupIPFn (res Stub.cached_flaky_nil_logger)
      (WithTimeout Background (lookupTimeout (res Stub.cached_flaky_nil_logger)))
      "flaky.test" 1%nat
    = (([], Some "no such host"), 2%nat)
  ∧ Refresh Stub.cached_flaky_nil_logger
    = Panic "invalid memory address or nil pointer dereference".
Proof.
  assert (lock (res Stub.cached_flaky_nil_logger) = unlocked) as H1
    by (vm_compute; reflexivity).
  assert (logger (res Stub.cached_flaky_nil_logger) = None) as H2
    by (vm_compute; reflexivity).
  assert (map_range (cache (res Stub.cached_flaky_nil_logger))
                    (world Stub.cached_flaky_nil_logger)
          = (["flaky.test"], 1%nat)) as H3 by (vm_compute; reflexivity).
  assert (lookupIPFn (res Stub.cached_flaky_nil_logger)
            (WithTimeout Background
               (lookupTimeout (res Stub.cached_flaky_nil_logger)))
            "flaky.test" 1%nat
          = (([], Some "no such host"), 2%nat)) as H4
    by (vm_compute; reflexivity).
  split; [exact H1|]. split; [exact H2|]. split; [exact H3|]. split; [exact H4|].
  exact (Refresh_with_nil_logger_panics Stub.cached_flaky_nil_logger
           "flaky.test" [] 1%nat [] "no such host" 2%nat H1 H2 H3 H4).
Defined.

Lemma Stop_keeps_the_cache_in_service_witness :
  quiescent Stub.cached_a
  ∧ ∃ st1, Stop Stub.cached_a = Done tt st1
         ∧ (∃ r s s1, Fetch Background "a.test" Stub.cached_a = Done r s
                    ∧ Fetch Background "a.test" st1 = Done r s1
                    ∧ cache (res s1) = cache (res s)
                    ∧ world s1 = world s)
         ∧ (∃ r s s1, LookupIP Background "a.test" Stub.cached_a = Done r s
                    ∧ LookupIP Background "a.test" st1 = Done r s1
                    ∧ cache (res s1) = cache (res s)
                    ∧ world s1 = world s).
Proof.
  assert (quiescent Stub.cached_a) as Hq.
  { split; [vm_compute; reflexivity | intros _; vm_compute; reflexivity]. }
  split; [exact Hq|].
  exact (Stop_keeps_the_cache_in_service Background "a.test" Stub.cached_a Hq).
Defined.

Lemma Fetch_hit_among_readers_witness :
  writer (lock (res Stub.cached_a_read_locked)) = false
  ∧ cache (res Stub.cached_a_read_locked) !! "a.test" = Some [Stub.ip_a]
  ∧ Fetch Background "a.test" Stub.cached_a_read_locked
    = Done ([Stub.ip_a], None)
           (set_trace (read_events "a.test" ++ trace Stub.cached_a_read_locked)
                      Stub.cached_a_read_locked).
Proof.
  assert (writer (lock (res Stub.cached_a_read_locked)) = false) as H1
    by (vm_compute; reflexivity).
  assert (cache (res Stub.cached_a_read_locked) !! "a.test" = Some [Stub.ip_a])
    as H2 by (vm_compute; reflexivity).
  split; [exact H1|]. split; [exact H2|].
  exact (Fetch_hit_among_readers Background "a.test"
           Stub.cached_a_read_locked [Stub.ip_a] H1 H2).
Defined.

Lemma closed_exactly_when_stopped_witness :
  is_Some (Some LogrusLogger)
  ∧ ∃ st0 st,
      NewDNSResolver 50000000 100000000 Stub.resolver (Some LogrusLogger) 0%nat
      = Done None st0
      ∧ run [OpFetch Background "a.test"; OpStop; OpTick; OpStop] st0
        = Done tt st
      ∧ ch_closed st = true
      ∧ ticker_stopped (ticker st) = true
      ∧ (closer (res st) = None ↔ true = true)
      ∧ goroutine_turn case_ch st = Done false st.
Proof.
  split; [exists LogrusLogger; reflexivity|].
  exact (closed_exactly_when_stopped
           50000000 100000000 Stub.resolver (Some LogrusLogger) 0%nat
           [OpFetch Background "a.test"; OpStop; OpTick; OpStop]
           (ex_intro _ LogrusLogger eq_refl)).
Defined.

Lemma every_run_is_disciplined_witness :
  is_Some (Some LogrusLogger)
  ∧ ∃ st0 st,
      NewDNSResolver 0 0 Stub.resolver (Some LogrusLogger) 0%nat = Done None st0
      ∧ run [OpFetch Background "flaky.test"; OpLookupIP Background "b.test";
             OpRefresh; OpStop; OpTick] st0 = Done tt st
      ∧ disciplined (trace st) = true
      ∧ holds (trace st) = Free
      ∧ lock (res st) = unlocked.
Proof.
  split; [exists LogrusLogger; reflexivity|].
  exact (every_run_is_disciplined
           0 0 Stub.resolver (Some LogrusLogger) 0%nat
           [OpFetch Background "flaky.test"; OpLookupIP Background "b.test";
            OpRefresh; OpStop; OpTick]
           (ex_intro _ LogrusLogger eq_refl)).
Defined.

Lemma configuration_is_fixed_witness :
  is_Some (Some LogrusLogger)
  ∧ ∃ st0 st,
      NewDNSResolver (-5) 100000000 Stub.resolver (Some LogrusLogger) 0%nat
      = Done None st0
      ∧ run [OpFetch Background "a.test"; OpRefresh; OpStop] st0 = Done tt st
      ∧ lookupIPFn (res st) = new_lookupIPFn Stub.resolver
      ∧ lookupTimeout (res st) = lookupTimeout (res st0)
      ∧ logger (res st) = Some LogrusLogger
      ∧ period (ticker st) = period (ticker st0).
Proof.
  split; [exists LogrusLogger; reflexivity|].
  exact (configuration_is_fixed
           (-5) 100000000 Stub.resolver (Some LogrusLogger) 0%nat
           [OpFetch Background "a.test"; OpRefresh; OpStop]
           (ex_intro _ LogrusLogger eq_refl)).
Defined.

(** ** Overlapping calls on the stub world *)



Lemma Refresh_sweeps_every_hostname_witness :
  lock (res Stub.cached_both) = unlocked
  ∧ is_Some (logger (res Stub.cached_both))
  ∧ ∃ st',
      Refresh Stub.cached_both = Done tt st'
      ∧ let ctx :=
          WithTimeout Background (lookupTimeout (res Stub.cached_both)) in
        let addrs :=
          (map_range (cache (res Stub.cached_both))
                     (world Stub.cached_both)).1 in
        let asked :=
          sweep_calls (lookupIPFn (res Stub.cached_both)) ctx addrs
            (map_range (cache (res Stub.cached_both))
                       (world Stub.cached_both)).2 in
        addrs ≡ₚ (map_to_list (cache (res Stub.cached_both))).*1
        ∧ asked.1.*1 = addrs
        ∧ world st' = asked.2
        ∧ resolutions (trace st')
          = rev (map (λ call, (ctx, call.1, call.2)) asked.1)
              ++ resolutions (trace Stub.cached_both)
        ∧ (∀ h ips, (h, (ips, None)) ∈ asked.1 →
             cache (res st') !! h = Some ips)
        ∧ (∀ h ips e, (h, (ips, Some e)) ∈ asked.1 →
             cache (res st') !! h = cache (res Stub.cached_both) !! h
             ∧ mkLogEntry e h refresh_msg ∈ log_out st')
        ∧ (∀ h r, is_Some (cache (res Stub.cached_both) !! h) →
             (∀ w, (lookupIPFn (res Stub.cached_both) ctx h w).1 = r) →
             cache (res st') !! h
             = match r.2 with
               | None => Some r.1
               | Some _ => cache (res Stub.cached_both) !! h
               end)
        ∧ dom (cache (res st')) = dom (cache (res Stub.cached_both))
        ∧ log_out st' = sweep_log asked.1 ++ log_out Stub.cached_both.
Proof.
  assert (lock (res Stub.cached_both) = unlocked) as Hlock
    by (vm_compute; reflexivity).
  assert (is_Some (logger (res Stub.cached_both))) as Hlg
    by (exists LogrusLogger; vm_compute; reflexivity).
  split; [exact Hlock|]. split; [exact Hlg|].
  exact (Refresh_sweeps_every_hostname Stub.cached_both Hlock Hlg).
Defined.

